(** * Coin selection and output leases of the lnd wallet

    A shallow embedding of [lnwallet/chanfunding/coin_select.go] and of the
    lease manager behind the [LeaseOutput] / [ReleaseOutput] / [ListLeases]
    calls of the WalletKit service, with the properties the specification
    states about them.

    Amounts are Go [int64] values ([ltcutil.Amount], [wire.TxOut.Value],
    [chainfee.SatPerKWeight]).  They are modelled as [Z] and every
    arithmetic operation of the source is written with its two's-complement
    wrap-around. *)

From Stdlib Require Import ZArith List Lia Bool.
From Stdlib.Strings Require Import Byte.
From stdpp Require Import gmap.
Import ListNotations.

Local Open Scope Z_scope.

(** ** 64-bit signed integers *)

Module Int64.

Definition min_int : Z := - 2 ^ 63.
Definition max_int : Z := 2 ^ 63 - 1.

(** The value a Go [int64] holds after an operation whose exact result is [z]. *)
Definition wrap (z : Z) : Z := (z + 2 ^ 63) mod 2 ^ 64 - 2 ^ 63.

Definition add (a b : Z) : Z := wrap (a + b).
Definition sub (a b : Z) : Z := wrap (a - b).
Definition mul (a b : Z) : Z := wrap (a * b).

(** Go's [/] on integers truncates toward zero. *)
Definition quot (a b : Z) : Z := wrap (Z.quot a b).

Definition in_range (z : Z) : Prop := min_int <= z <= max_int.

End Int64.

(** ** Data model *)

(** [wire.TxOut]: an output value with its locking script. *)
Record TxOut := mkTxOut {
  Value : Z;
  PkScript : list byte
}.

(** [wire.OutPoint]: the 32-byte transaction hash, read as a number, and the
    output index. *)
Record OutPoint := mkOutPoint {
  Hash : N;
  Index : N
}.

(** [Coin] embeds a [wire.TxOut] and a [wire.OutPoint]. *)
Record Coin := mkCoin {
  coinTxOut : TxOut;
  coinOutPoint : OutPoint
}.

(** The errors coin selection returns.  [ErrInsufficientFunds] and
    [errUnsupportedInput] are the two error structs of the source, with their
    fields in declaration order; the two [fmt.Errorf] errors keep the values
    that are formatted into their messages. *)
Inductive error :=
| ErrInsufficientFunds (amountAvailable amountSelected : Z)
| errUnsupportedInput (pkScript : list byte)
| ErrFeeSanity (fee totalOut : Z)
| ErrBelowDust (outputAmt requiredFeeNoChange dustLimit : Z).

(** A Go [(value, error)] return. *)
Inductive result (A : Type) :=
| OK (a : A)
| Err (e : error).
Arguments OK {A} a.
Arguments Err {A} e.

(** [ErrInsufficientFunds.Error] prints
    ["... need %v only have %v available"] with [amountAvailable] and then
    [amountSelected]: the first field is reported as the amount needed, the
    second as the amount at hand. *)
Definition reportedNeed (e : error) : option Z :=
  match e with
  | ErrInsufficientFunds a _ => Some a
  | _ => None
  end.

Definition reportedHave (e : error) : option Z :=
  match e with
  | ErrInsufficientFunds _ s => Some s
  | _ => None
  end.

(** ** selectInputs *)

(** The state of [for i, coin := range coins] in [selectInputs]: [rest] is what
    is left to visit, [i] the index of its head, [satSelected] the running
    total. *)
Fixpoint selectInputs_loop (amt : Z) (coins rest : list Coin) (i : nat)
    (satSelected : Z) : result (Z * list Coin) :=
  match rest with
  | [] => Err (ErrInsufficientFunds amt satSelected)
  | coin :: rest' =>
      let satSelected := Int64.add satSelected (Value (coinTxOut coin)) in
      if satSelected >=? amt then OK (satSelected, firstn (S i) coins)
      else selectInputs_loop amt coins rest' (S i) satSelected
  end.

Definition selectInputs (amt : Z) (coins : list Coin) : result (Z * list Coin) :=
  selectInputs_loop amt coins coins 0 0.

(** ** The weight estimator and the fee rate

    [calculateFees] drives [input.TxWeightEstimator], classifies scripts with
    [txscript.IsPayToWitnessPubKeyHash] and [txscript.IsPayToScriptHash], and
    prices a weight with [chainfee.SatPerKWeight.FeeForWeight].  None of these
    is defined in [coin_select.go]; the embedding takes them as an interface.
    The estimator is a mutable struct in Go, so each [Add...] method maps the
    estimator before the call to the estimator after it. *)
Class FeeEnv := {
  IsPayToWitnessPubKeyHash : list byte -> bool;
  IsPayToScriptHash : list byte -> bool;
  TxWeightEstimator : Type;
  (** the zero value of [var weightEstimate input.TxWeightEstimator] *)
  newEstimator : TxWeightEstimator;
  AddP2WKHInput : TxWeightEstimator -> TxWeightEstimator;
  AddNestedP2WKHInput : TxWeightEstimator -> TxWeightEstimator;
  AddP2WSHOutput : TxWeightEstimator -> TxWeightEstimator;
  AddP2WKHOutput : TxWeightEstimator -> TxWeightEstimator;
  Weight : TxWeightEstimator -> Z;
  (** [feeRate.FeeForWeight(wu)] *)
  FeeForWeight : Z -> Z -> Z
}.

(** What one pass through the body of the [for { ... }] loop of [CoinSelect]
    does: [continue] with a new [amtNeeded], or [return]. *)
Inductive iteration (A : Type) :=
| Continue (amtNeeded : Z)
| Return (r : A).
Arguments Continue {A} amtNeeded.
Arguments Return {A} r.

Section CoinSelection.

Context {env : FeeEnv}.

(** ** calculateFees *)

(** The [for _, utxo := range utxos] loop of [calculateFees]. *)
Fixpoint addInputs (utxos : list Coin) (weightEstimate : TxWeightEstimator)
    : result TxWeightEstimator :=
  match utxos with
  | [] => OK weightEstimate
  | utxo :: utxos' =>
      if IsPayToWitnessPubKeyHash (PkScript (coinTxOut utxo)) then
        addInputs utxos' (AddP2WKHInput weightEstimate)
      else if IsPayToScriptHash (PkScript (coinTxOut utxo)) then
        addInputs utxos' (AddNestedP2WKHInput weightEstimate)
      else Err (errUnsupportedInput (PkScript (coinTxOut utxo)))
  end.

(** Returns [(requiredFeeNoChange, requiredFeeWithChange)]. *)
Definition calculateFees (utxos : list Coin) (feeRate : Z) : result (Z * Z) :=
  match addInputs utxos newEstimator with
  | Err e => Err e
  | OK weightEstimate =>
      let weightEstimate := AddP2WSHOutput weightEstimate in
      let totalWeight := Weight weightEstimate in
      let requiredFeeNoChange := FeeForWeight feeRate totalWeight in
      let weightEstimate := AddP2WKHOutput weightEstimate in
      let totalWeight := Weight weightEstimate in
      let requiredFeeWithChange := FeeForWeight feeRate totalWeight in
      OK (requiredFeeNoChange, requiredFeeWithChange)
  end.

(** ** sanityCheckFee

    [None] is Go's [nil] error.  The quotient of an [int64] by 5 is within
    range, so [totalOut/5] is [Z.quot] without a wrap. *)
Definition sanityCheckFee (totalOut fee : Z) : option error :=
  if fee >? Z.quot totalOut 5 then Some (ErrFeeSanity fee totalOut)
  else None.

(** ** CoinSelect *)

(** The [switch] on [overShootAmt] once the first case ([continue]) is
    excluded, followed by the dust test. *)
Definition changeAmount (overShootAmt requiredFeeWithChange dustLimit : Z) : Z :=
  let changeAmt :=
    if overShootAmt >? requiredFeeWithChange
    then Int64.sub overShootAmt requiredFeeWithChange
    else 0 in
  if changeAmt <? dustLimit then 0 else changeAmt.

Definition CoinSelect_body (feeRate amt dustLimit : Z) (coins : list Coin)
    (amtNeeded : Z) : iteration (result (list Coin * Z)) :=
  match selectInputs amtNeeded coins with
  | Err e => Return (Err e)
  | OK (totalSat, selectedUtxos) =>
      match calculateFees selectedUtxos feeRate with
      | Err e => Return (Err e)
      | OK (requiredFeeNoChange, requiredFeeWithChange) =>
          let overShootAmt := Int64.sub totalSat amt in
          if overShootAmt <? requiredFeeNoChange then
            Continue (Int64.add amt requiredFeeNoChange)
          else
            let changeAmt :=
              changeAmount overShootAmt requiredFeeWithChange dustLimit in
            let totalOut := Int64.add amt changeAmt in
            match sanityCheckFee totalOut (Int64.sub totalSat totalOut) with
            | Some err => Return (Err err)
            | None => Return (OK (selectedUtxos, changeAmt))
            end
      end
  end.

(** The loop itself has no bound in the source.  [fuel] bounds the number of
    passes; [None] means the passes ran out before a [return]. *)
Fixpoint CoinSelect_loop (fuel : nat) (feeRate amt dustLimit : Z)
    (coins : list Coin) (amtNeeded : Z) : option (result (list Coin * Z)) :=
  match fuel with
  | O => None
  | S fuel' =>
      match CoinSelect_body feeRate amt dustLimit coins amtNeeded with
      | Continue amtNeeded' =>
          CoinSelect_loop fuel' feeRate amt dustLimit coins amtNeeded'
      | Return r => Some r
      end
  end.

Definition CoinSelect (fuel : nat) (feeRate amt dustLimit : Z)
    (coins : list Coin) : option (result (list Coin * Z)) :=
  CoinSelect_loop fuel feeRate amt dustLimit coins amt.

(** ** CoinSelectSubtractFees

    Returns [(selectedUtxos, outputAmt, changeAmt)]. *)
Definition CoinSelectSubtractFees (feeRate amt dustLimit : Z)
    (coins : list Coin) : result (list Coin * Z * Z) :=
  match selectInputs amt coins with
  | Err e => Err e
  | OK (totalSat, selectedUtxos) =>
      match calculateFees selectedUtxos feeRate with
      | Err e => Err e
      | OK (requiredFeeNoChange, requiredFeeWithChange) =>
          let outputAmt := Int64.sub totalSat requiredFeeNoChange in
          let changeAmt := 0 in
          if outputAmt <? dustLimit then
            Err (ErrBelowDust outputAmt requiredFeeNoChange dustLimit)
          else
            let newOutput := Int64.sub amt requiredFeeWithChange in
            let newChange := Int64.sub totalSat amt in
            let '(outputAmt, changeAmt) :=
              if (newChange >=? dustLimit) && (newOutput >=? dustLimit)
              then (newOutput, newChange)
              else (outputAmt, changeAmt) in
            let totalOut := Int64.add outputAmt changeAmt in
            match sanityCheckFee totalOut (Int64.sub totalSat totalOut) with
            | Some err => Err err
            | None => OK (selectedUtxos, outputAmt, changeAmt)
            end
      end
  end.

End CoinSelection.

(** ** A concrete environment

    An instance of the interface on which the embedding can run: the weight
    estimator, the fee rate and the script tests that [calculateFees] calls,
    none of which is part of [coin_select.go]. *)
Module Lnd.

(** Modelled from the spec: the state of the weight estimator, "computing
    transaction virtual size/weight from a set of typed inputs and outputs";
    the fields are those of [input.TxWeightEstimator], which is missing. *)
Record estimator := mkEstimator {
  hasWitness : bool;
  inputCount : Z;
  outputCount : Z;
  inputSize : Z;
  inputWitnessSize : Z;
  outputSize : Z
}.

(** Modelled from the spec: the serialized size of an input without its
    script (outpoint, script length, sequence); the constant is missing. *)
Definition InputSize : Z := 32 + 4 + 1 + 4.

(** Modelled from the spec: the size of a witness-key-hash script
    ([OP_0 OP_DATA_20 <20 bytes>]); the constant is missing. *)
Definition P2WPKHSize : Z := 1 + 1 + 20.

(** Modelled from the spec: the size of the witness of a "plain witness
    key-hash" input (count, signature, public key); the constant is missing. *)
Definition P2WKHWitnessSize : Z := 1 + 1 + 73 + 1 + 33.

(** Modelled from the spec: the size of a witness-script-hash output (value,
    script length, [OP_0 OP_DATA_32 <32 bytes>]); the constant is missing. *)
Definition P2WSHOutputSize : Z := 8 + 1 + (1 + 1 + 32).

(** Modelled from the spec: the size of the "witness-key-hash change
    output"; the constant is missing. *)
Definition P2WKHOutputSize : Z := 8 + 1 + P2WPKHSize.

(** Modelled from the spec: the size of the version and lock time of a
    transaction; the constant is missing. *)
Definition BaseTxSize : Z := 4 + 4.

(** Modelled from the spec: the size of the marker and flag of a transaction
    with witnesses; the constant is missing. *)
Definition WitnessHeaderSize : Z := 1 + 1.

(** Modelled from the spec: a weight unit is a quarter of a stripped byte;
    the constant is missing. *)
Definition witnessScaleFactor : Z := 4.

(** Modelled from the spec: the size of a variable-length count
    ([wire.VarIntSerializeSize], which is missing). *)
Definition VarIntSerializeSize (val : Z) : Z :=
  if val <? 0xfd then 1
  else if val <=? 0xffff then 3
  else if val <=? 0xffffffff then 5
  else 9.

(** Modelled from the spec: the estimator before any input or output. *)
Definition zero : estimator := mkEstimator false 0 0 0 0 0.

(** Modelled from the spec: adding a "plain witness key-hash" input
    ([AddP2WKHInput], which is missing). *)
Definition addP2WKHInput (twe : estimator) : estimator :=
  mkEstimator true ((inputCount twe + 1) mod 2 ^ 32) (outputCount twe)
    (Int64.add (inputSize twe) InputSize)
    (Int64.add (inputWitnessSize twe) P2WKHWitnessSize)
    (outputSize twe).

(** Modelled from the spec: adding a "nested witness key-hash" input
    ([AddNestedP2WKHInput], which is missing). *)
Definition addNestedP2WKHInput (twe : estimator) : estimator :=
  mkEstimator true ((inputCount twe + 1) mod 2 ^ 32) (outputCount twe)
    (Int64.add (inputSize twe) (InputSize + P2WPKHSize))
    (Int64.add (inputWitnessSize twe) P2WKHWitnessSize)
    (outputSize twe).

(** Modelled from the spec: adding an output of a given serialized size
    ([AddP2WSHOutput] and [AddP2WKHOutput], which are missing). *)
Definition addOutput (size : Z) (twe : estimator) : estimator :=
  mkEstimator (hasWitness twe) (inputCount twe)
    ((outputCount twe + 1) mod 2 ^ 32) (inputSize twe) (inputWitnessSize twe)
    (Int64.add (outputSize twe) size).

(** Modelled from the spec: the "transaction weight" of what has been added
    ([Weight], which is missing): four units per stripped byte and one per
    witness byte. *)
Definition weight (twe : estimator) : Z :=
  let txSizeStripped :=
    Int64.add (Int64.add (Int64.add (Int64.add BaseTxSize
      (VarIntSerializeSize (inputCount twe))) (inputSize twe))
      (VarIntSerializeSize (outputCount twe))) (outputSize twe) in
  let weight := Int64.mul txSizeStripped witnessScaleFactor in
  if hasWitness twe
  then Int64.add weight (Int64.add WitnessHeaderSize (inputWitnessSize twe))
  else weight.

(** Modelled from the spec: the fee rate is the "cost per unit of
    transaction weight", in satoshis per 1000 weight units as [CoinSelect]
    documents it ([SatPerKWeight.FeeForWeight], which is missing); the fee is
    rounded down. *)
Definition feeForWeight (s wu : Z) : Z := Int64.quot (Int64.mul s wu) 1000.

(** Modelled from the spec: the test for the "plain witness key-hash"
    script, [OP_0 OP_DATA_20 <20 bytes>]
    ([txscript.IsPayToWitnessPubKeyHash], which is missing). *)
Definition isPayToWitnessPubKeyHash (script : list byte) : bool :=
  match script with
  | x00 :: x14 :: rest => (length rest =? 20)%nat
  | _ => false
  end.

(** Modelled from the spec: the test for the script-hash script that nests a
    witness key-hash, [OP_HASH160 OP_DATA_20 <20 bytes> OP_EQUAL]
    ([txscript.IsPayToScriptHash], which is missing). *)
Definition isPayToScriptHash (script : list byte) : bool :=
  match script with
  | xa9 :: x14 :: rest =>
      match skipn 20 rest with
      | [x87] => true
      | _ => false
      end
  | _ => false
  end.

(** Modelled from the spec: the interface, filled with the definitions
    above. *)
#[export] Instance env : FeeEnv := {|
  IsPayToWitnessPubKeyHash := isPayToWitnessPubKeyHash;
  IsPayToScriptHash := isPayToScriptHash;
  TxWeightEstimator := estimator;
  newEstimator := zero;
  AddP2WKHInput := addP2WKHInput;
  AddNestedP2WKHInput := addNestedP2WKHInput;
  AddP2WSHOutput := addOutput P2WSHOutputSize;
  AddP2WKHOutput := addOutput P2WKHOutputSize;
  Weight := weight;
  FeeForWeight := feeForWeight
|}.

(** A pay-to-witness-key-hash script and a coin locked by it. *)
Definition p2wkhScript : list byte := x00 :: x14 :: repeat x11 20.

Definition coin (value : Z) (index : N) : Coin :=
  mkCoin (mkTxOut value p2wkhScript) (mkOutPoint 1 index).

(** The candidates of Scenario A of the specification, and a fee rate for
    which the no-change fee of the two of them is 2000. *)
Definition scenarioA : list Coin := [coin 100000 0; coin 50000 1].
Definition rateA : Z := 2632.

(** Scenario D of the specification: a small request at a fee rate so high
    that the fee is above a fifth of the outputs. *)
Definition rateD : Z := 30000.
Definition amtD : Z := 10000.

(** A request that the first coin of Scenario A covers, but not with its
    fee. *)
Definition amtRestart : Z := 99900.

(** A lone small coin, and the minimum relay fee rate of 253 sat/kw. *)
Definition smallCoin : list Coin := [coin 1000 0].
Definition minRelayRate : Z := 253.

(** Three candidates on which the request of 99900 restarts twice. *)
Definition threeCoins : list Coin :=
  [coin 100000 0; coin 1500 1; coin 1400 2].

(** A request and a coin at the upper end of [int64]. *)
Definition hugeAmt : Z := 2 ^ 63 - 10.
Definition hugeCoin : list Coin := [coin (2 ^ 63 - 5) 0].

End Lnd.

(** ** The lease manager

    The source holds the declaration of the [LeaseOutput], [ReleaseOutput] and
    [ListLeases] calls of the WalletKit service and of their messages; the
    manager that serves them is not part of it.  The definitions below follow
    the specification of the manager. *)

#[global] Instance OutPoint_eq_dec : EqDecision OutPoint.
Proof. solve_decision. Defined.

#[global] Instance OutPoint_countable : Countable OutPoint.
Proof.
  refine (inj_countable' (fun o => (Hash o, Index o))
            (fun p => mkOutPoint (fst p) (snd p)) _).
  intros []; reflexivity.
Defined.

(** Modelled from the spec: the lease identifier, "an opaque 32-byte
    identifier", read as a number. *)
Definition LeaseID : Type := N.

(** Modelled from the spec: a lease, "(leaseID, outpoint, expiresAt)". *)
Record Lease := mkLease {
  leaseID : LeaseID;
  outpoint : OutPoint;
  expiresAt : Z
}.

(** Modelled from the spec: the lease table, which "is keyed by outpoint and
    stores (leaseID, expiresAt)". *)
Abbreviation LeaseTable := (gmap OutPoint (LeaseID * Z)).

(** Modelled from the spec: the two failures of the manager,
    "LeaseConflict(outpoint, holder)" of [Lock] and the not-found answer of
    [Release]. *)
Inductive leaseError :=
| LeaseConflict (o : OutPoint) (holder : LeaseID)
| NotFound.

(** Modelled from the spec: a lease is live until its [expiresAt]; "expiry is
    evaluated lazily at lookup time" and expired leases "are treated as
    absent". *)
Definition liveAt (now : Z) (entry : OutPoint * (LeaseID * Z)) : Prop :=
  now < snd (snd entry).

#[global] Instance liveAt_dec now entry : Decision (liveAt now entry).
Proof. unfold liveAt. apply _. Defined.

(** Modelled from the spec: the holder of a live lease on [o], if any. *)
Definition holder (now : Z) (o : OutPoint) (m : LeaseTable) : option LeaseID :=
  match m !! o with
  | Some (id, e) => if now <? e then Some id else None
  | None => None
  end.

(** Modelled from the spec: [Lock(leaseID, outpoint, ttl)] at time [now]
    "creates a new lease or extends an existing one owned by the same leaseID;
    fails with LeaseConflict if the outpoint is already leased under a
    different leaseID and that lease has not expired".  It answers with the
    new [expiresAt] and the table after the call. *)
Definition Lock (now : Z) (id : LeaseID) (o : OutPoint) (ttl : Z)
    (m : LeaseTable) : (leaseError + Z) * LeaseTable :=
  match holder now o m with
  | Some h =>
      if decide (h = id)
      then (inr (now + ttl), <[o := (id, now + ttl)]> m)
      else (inl (LeaseConflict o h), m)
  | None => (inr (now + ttl), <[o := (id, now + ttl)]> m)
  end.

(** Modelled from the spec: [Release(leaseID, outpoint)] "releases only if the
    lease is owned by leaseID" and answers not-found otherwise. *)
Definition Release (now : Z) (id : LeaseID) (o : OutPoint)
    (m : LeaseTable) : (leaseError + unit) * LeaseTable :=
  match holder now o m with
  | Some h =>
      if decide (h = id) then (inr tt, delete o m) else (inl NotFound, m)
  | None => (inl NotFound, m)
  end.

(** Modelled from the spec: the lease an entry of the table stands for. *)
Definition leaseOfEntry (entry : OutPoint * (LeaseID * Z)) : Lease :=
  mkLease (fst (snd entry)) (fst entry) (snd (snd entry)).

(** Modelled from the spec: [ListLeases()] gives "all currently live leases
    (expired ones are treated as absent)". *)
Definition ListLeases (now : Z) (m : LeaseTable) : list Lease :=
  leaseOfEntry <$> map_to_list (filter (liveAt now) m).

(** Modelled from the spec: the periodic sweep, which drops the leases that
    have expired. *)
Definition Sweep (now : Z) (m : LeaseTable) : LeaseTable :=
  filter (liveAt now) m.

(** Modelled from the spec: the calls a client can make, each with the time
    the manager's clock shows when it is served. *)
Inductive leaseCall :=
| CallLock (now : Z) (id : LeaseID) (o : OutPoint) (ttl : Z)
| CallRelease (now : Z) (id : LeaseID) (o : OutPoint)
| CallSweep (now : Z).

(** Modelled from the spec: the table after one call. *)
Definition serve (m : LeaseTable) (c : leaseCall) : LeaseTable :=
  match c with
  | CallLock now id o ttl => snd (Lock now id o ttl m)
  | CallRelease now id o => snd (Release now id o m)
  | CallSweep now => Sweep now m
  end.

(** Modelled from the spec: the time at which a call is served. *)
Definition callTime (c : leaseCall) : Z :=
  match c with
  | CallLock now _ _ _ => now
  | CallRelease now _ _ => now
  | CallSweep now => now
  end.

(** Modelled from the spec: the lease identifier a call is made under, if
    any. *)
Definition callBy (c : leaseCall) : option LeaseID :=
  match c with
  | CallLock _ id _ _ => Some id
  | CallRelease _ id _ => Some id
  | CallSweep _ => None
  end.

(** Modelled from the spec: the table after a sequence of calls. *)
Definition serveAll (m : LeaseTable) (calls : list leaseCall) : LeaseTable :=
  fold_left serve calls m.

(** Modelled from the spec: the lease identifier [A] of Scenario C. *)
Definition leaseA : LeaseID := 7%N.

(** Modelled from the spec: the lease identifier [B] of Scenario C. *)
Definition leaseB : LeaseID := 8%N.

(** Modelled from the spec: the outpoint [O] of Scenario C. *)
Definition outpointO : OutPoint := mkOutPoint 1 0.

(** ** Exact and machine totals *)

(** The exact total value of a list of coins. *)
Definition sumValues (l : list Coin) : Z :=
  fold_right (fun c s => Value (coinTxOut c) + s) 0 l.

(** The total as [selectInputs] accumulates it: left to right, in [int64]. *)
Definition accumulate (l : list Coin) (satSelected : Z) : Z :=
  fold_left (fun s c => Int64.add s (Value (coinTxOut c))) l satSelected.

Definition prefixTotal (coins : list Coin) (k : nat) : Z :=
  accumulate (firstn k coins) 0.

(** Every coin has a non-negative value and the exact total fits an
    [int64]. *)
Definition valuesInRange (coins : list Coin) : Prop :=
  Forall (fun c => 0 <= Value (coinTxOut c)) coins /\
  sumValues coins <= Int64.max_int.

(** ** Observers of the loop of CoinSelect *)

(** The working target [amtNeeded] of the pass that returns. *)
Fixpoint finalTarget {env : FeeEnv} (fuel : nat) (feeRate amt dustLimit : Z)
    (coins : list Coin) (amtNeeded : Z) : option Z :=
  match fuel with
  | O => None
  | S fuel' =>
      match CoinSelect_body feeRate amt dustLimit coins amtNeeded with
      | Continue amtNeeded' =>
          finalTarget fuel' feeRate amt dustLimit coins amtNeeded'
      | Return _ => Some amtNeeded
      end
  end.

(** The number of times the loop takes [continue] before it returns. *)
Fixpoint restarts {env : FeeEnv} (fuel : nat) (feeRate amt dustLimit : Z)
    (coins : list Coin) (amtNeeded : Z) : option nat :=
  match fuel with
  | O => None
  | S fuel' =>
      match CoinSelect_body feeRate amt dustLimit coins amtNeeded with
      | Continue amtNeeded' =>
          option_map S (restarts fuel' feeRate amt dustLimit coins amtNeeded')
      | Return _ => Some O
      end
  end.

(** The preconditions under which the [int64] arithmetic of coin selection
    is exact: the requested amount and the dust limit are non-negative, the
    coin values are non-negative with a total that fits, and the two fee
    estimates of every prefix of the candidates are non-negative and leave
    room for the raised target [amt + requiredFeeNoChange]. *)
Record inRange {env : FeeEnv} (feeRate amt dustLimit : Z) (coins : list Coin)
    : Prop := {
  amt_range : 0 <= amt <= Int64.max_int;
  dust_range : 0 <= dustLimit;
  values_range : valuesInRange coins;
  fees_range : forall k requiredFeeNoChange requiredFeeWithChange,
    (k <= length coins)%nat ->
    calculateFees (firstn k coins) feeRate =
      OK (requiredFeeNoChange, requiredFeeWithChange) ->
    0 <= requiredFeeNoChange /\ amt + requiredFeeNoChange <= Int64.max_int /\
    0 <= requiredFeeWithChange <= Int64.max_int
}.

(** The part of these preconditions that the loop of [CoinSelect] needs to
    come to an end: the requested amount is non-negative, the coin values
    are non-negative with a total that fits, and every raised target
    [amt + requiredFeeNoChange] fits. *)
Record targetsInRange {env : FeeEnv} (feeRate amt : Z) (coins : list Coin)
    : Prop := {
  target_amt_range : 0 <= amt <= Int64.max_int;
  target_values_range : valuesInRange coins;
  target_fees_range : forall k requiredFeeNoChange requiredFeeWithChange,
    (k <= length coins)%nat ->
    calculateFees (firstn k coins) feeRate =
      OK (requiredFeeNoChange, requiredFeeWithChange) ->
    Int64.in_range (amt + requiredFeeNoChange)
}.

(** The coins whose script passes one of the two tests of the [switch] of
    [calculateFees]. *)
Definition supportedScript {env : FeeEnv} (c : Coin) : bool :=
  IsPayToWitnessPubKeyHash (PkScript (coinTxOut c)) ||
  IsPayToScriptHash (PkScript (coinTxOut c)).

(** ** The tower candidate iterator

    [watchtower/wtclient/candidate_iterator.go].  The iterator keeps a
    [container/list] of tower identifiers, a pointer [nextCandidate] to one of
    its elements (or [nil]) and a map from identifiers to towers.  The list
    with its pointer is held as the two parts the pointer cuts it into:
    [queueBefore], the elements in front of [nextCandidate], and [queueFrom],
    the elements from [nextCandidate] to the back; [nextCandidate] is [nil]
    exactly when [queueFrom] is empty.  The mutex is left out: every method
    holds it from entry to return. *)
Module Wtclient.

(** [wtdb.TowerID] is a [uint64]. *)
Definition TowerID : Type := N.

(** [wtdb.Tower] and [net.Addr] are declared outside the file, as are the
    methods [AddAddress] and [RemoveAddress] of a tower; the iterator reads
    the fields [ID] and [Addresses] and calls the two methods.  A tower is
    mutated in place in Go; here a method maps the tower before the call to
    the tower after it, and the map holds towers by value. *)
Class TowerEnv := {
  Tower : Type;
  Addr : Type;
  ID : Tower -> TowerID;
  Addresses : Tower -> list Addr;
  AddAddress : Tower -> Addr -> Tower;
  RemoveAddress : Tower -> Addr -> Tower
}.

(** [ErrTowerCandidatesExhausted] of the package and [wtdb.ErrLastTowerAddr]. *)
Inductive iterError :=
| ErrTowerCandidatesExhausted
| ErrLastTowerAddr.

Section Iterator.

Context {towers : TowerEnv}.

Record towerListIterator := mkIterator {
  queueBefore : list TowerID;
  queueFrom : list TowerID;
  candidates : gmap TowerID Tower
}.

(** The whole list [t.queue], front to back. *)
Definition queue (t : towerListIterator) : list TowerID :=
  queueBefore t ++ queueFrom t.

(** [Reset]: [t.nextCandidate = t.queue.Front()], which is [nil] for an empty
    list.  The error it returns is always [nil]. *)
Definition Reset (t : towerListIterator) : towerListIterator :=
  mkIterator [] (queueBefore t ++ queueFrom t) (candidates t).

(** The body of the loop of [newTowerListIterator]: the candidate's [ID] is
    pushed to the back of the list, in front of the still [nil]
    [nextCandidate], and the candidate is stored in the map under it,
    replacing an earlier one with the same [ID]. *)
Definition pushCandidate (iter : towerListIterator) (candidate : Tower)
    : towerListIterator :=
  mkIterator (queueBefore iter ++ [ID candidate]) (queueFrom iter)
    (<[ID candidate := candidate]> (candidates iter)).

(** [newTowerListIterator]: the loop over the candidates, then [Reset]. *)
Definition newTowerListIterator (cs : list Tower) : towerListIterator :=
  Reset (fold_left pushCandidate cs (mkIterator [] [] ∅)).

(** The [for t.nextCandidate != nil] loop of [Next] on the elements from
    [nextCandidate] on: an identifier that is no longer in the map is
    removed from the list and the loop goes on with the element behind it;
    for one that is, [nextCandidate] moves behind it and its tower is
    returned. *)
Fixpoint Next_loop (cands : gmap TowerID Tower) (before from : list TowerID)
    : (iterError + Tower) * (list TowerID * list TowerID) :=
  match from with
  | [] => (inl ErrTowerCandidatesExhausted, (before, []))
  | towerID :: rest =>
      match cands !! towerID with
      | None => Next_loop cands before rest
      | Some tower => (inr tower, (before ++ [towerID], rest))
      end
  end.

Definition Next (t : towerListIterator)
    : (iterError + Tower) * towerListIterator :=
  let '(r, (before, from)) :=
    Next_loop (candidates t) (queueBefore t) (queueFrom t) in
  (r, mkIterator before from (candidates t)).

(** [AddCandidate]: a new tower is pushed to the back of the list and
    stored; behind a non-[nil] [nextCandidate] it lands at the back of
    [queueFrom], and with a [nil] one it becomes [nextCandidate], so that
    [queueFrom] holds it alone.  For a tower already in the map, each address
    of the candidate is added to the stored tower. *)
Definition AddCandidate (candidate : Tower) (t : towerListIterator)
    : towerListIterator :=
  match candidates t !! ID candidate with
  | None =>
      mkIterator (queueBefore t) (queueFrom t ++ [ID candidate])
        (<[ID candidate := candidate]> (candidates t))
  | Some tower =>
      mkIterator (queueBefore t) (queueFrom t)
        (<[ID candidate :=
             fold_left AddAddress (Addresses candidate) tower]>
           (candidates t))
  end.

(** [RemoveCandidate]; [addr] is [None] for a [nil] address.  [None] is the
    [nil] error. *)
Definition RemoveCandidate (candidate : TowerID) (addr : option Addr)
    (t : towerListIterator) : option iterError * towerListIterator :=
  match candidates t !! candidate with
  | None => (None, t)
  | Some tower =>
      match addr with
      | Some a =>
          let tower := RemoveAddress tower a in
          let t :=
            mkIterator (queueBefore t) (queueFrom t)
              (<[candidate := tower]> (candidates t)) in
          if (length (Addresses tower) =? 0)%nat
          then (Some ErrLastTowerAddr, t)
          else (None, t)
      | None =>
          (None,
           mkIterator (queueBefore t) (queueFrom t)
             (delete candidate (candidates t)))
      end
  end.

(** [IsActive]. *)
Definition IsActive (tower : TowerID) (t : towerListIterator) : bool :=
  match candidates t !! tower with
  | Some _ => true
  | None => false
  end.

(** The towers that successive calls of [Next] return, up to [fuel] calls or
    the first call that finds the candidates exhausted, and the iterator
    after them. *)
Fixpoint drain (fuel : nat) (t : towerListIterator)
    : list Tower * towerListIterator :=
  match fuel with
  | O => ([], t)
  | S fuel' =>
      match Next t with
      | (inr tower, t') =>
          let '(l, t'') := drain fuel' t' in (tower :: l, t'')
      | (inl _, t') => ([], t')
      end
  end.

(** The towers [Next] can still return before [Reset]: those of the
    identifiers from [nextCandidate] on that are in the map, in the order of
    the list. *)
Definition pending (t : towerListIterator) : list Tower :=
  omap (fun towerID => candidates t !! towerID) (queueFrom t).

(** The identifiers of a list that are in the map. *)
Definition stillCandidates (cands : gmap TowerID Tower) (l : list TowerID)
    : list TowerID :=
  filter (fun towerID => is_Some (cands !! towerID)) l.

(** The iterators a client can arrive at: a new one, and what the methods
    make of one. *)
Inductive reachable : towerListIterator -> Prop :=
| reachable_new cs : reachable (newTowerListIterator cs)
| reachable_Reset t : reachable t -> reachable (Reset t)
| reachable_Next t : reachable t -> reachable (snd (Next t))
| reachable_AddCandidate c t : reachable t -> reachable (AddCandidate c t)
| reachable_RemoveCandidate id addr t :
    reachable t -> reachable (snd (RemoveCandidate id addr t)).

End Iterator.

(** An instance on which the iterator runs: a tower is its identifier with
    its addresses, [AddAddress] puts an address that is not yet there in
    front, and [RemoveAddress] deletes an address. *)
#[export] Instance plainTowers : TowerEnv := {|
  Tower := TowerID * list N;
  Addr := N;
  ID := fst;
  Addresses := snd;
  AddAddress := fun t a =>
    if bool_decide (a ∈ snd t) then t else (fst t, a :: snd t);
  RemoveAddress := fun t a =>
    (fst t, List.filter (fun b => negb (N.eqb a b)) (snd t))
|}.

(** Two towers of this instance. *)
Definition towerA : @Tower plainTowers := (1%N, [10%N]).
Definition towerB : @Tower plainTowers := (2%N, [20%N]).

End Wtclient.

(** ** The timestamp of a node announcement

    [NodeAnnSetTimestamp] of the [netann] package.  The announcement is
    declared outside the file; the function reads and writes its [uint32]
    field [Timestamp] only.  [time.Now().Unix()] is the argument [now], an
    [int64], and [uint32(...)] keeps its low 32 bits. *)
Module Netann.

Definition uint32 (z : Z) : Z := z mod 2 ^ 32.

(** The [Timestamp] after the call, given the one before it. *)
Definition NodeAnnSetTimestamp (now : Z) (timestamp : Z) : Z :=
  let newTimestamp := uint32 now in
  if newTimestamp <=? timestamp then uint32 (timestamp + 1)
  else newTimestamp.

End Netann.

(** * Properties *)

(** ** 64-bit arithmetic without overflow *)

Lemma wrap_in_range z : Int64.in_range (Int64.wrap z).
Proof.
  unfold Int64.in_range, Int64.wrap, Int64.min_int, Int64.max_int.
  pose proof (Z.mod_pos_bound (z + 2 ^ 63) (2 ^ 64) ltac:(lia)). lia.
Qed.

Lemma wrap_small z : Int64.in_range z -> Int64.wrap z = z.
Proof.
  unfold Int64.in_range, Int64.wrap, Int64.min_int, Int64.max_int. intros Hz.
  rewrite Z.mod_small; lia.
Qed.

Lemma add_small a b : Int64.in_range (a + b) -> Int64.add a b = a + b.
Proof. apply wrap_small. Qed.

Lemma sub_small a b : Int64.in_range (a - b) -> Int64.sub a b = a - b.
Proof. apply wrap_small. Qed.

(** ** selectInputs *)

Lemma accumulate_snoc pre c s :
  accumulate (pre ++ [c]) s = Int64.add (accumulate pre s) (Value (coinTxOut c)).
Proof. unfold accumulate. rewrite fold_left_app. reflexivity. Qed.

Lemma prefixTotal_S pre c rest :
  prefixTotal (pre ++ c :: rest) (S (length pre)) =
  Int64.add (prefixTotal (pre ++ c :: rest) (length pre)) (Value (coinTxOut c)).
Proof.
  unfold prefixTotal.
  replace (pre ++ c :: rest) with ((pre ++ [c]) ++ rest)
    by (rewrite <- app_assoc; reflexivity).
  rewrite (take_app_length' (pre ++ [c]) rest)
    by (rewrite length_app; simpl; lia).
  rewrite <- app_assoc. simpl.
  rewrite (take_app_length' pre (c :: rest)) by reflexivity.
  apply accumulate_snoc.
Qed.

Lemma prefixTotal_all coins : prefixTotal coins (length coins) = accumulate coins 0.
Proof. unfold prefixTotal. rewrite firstn_all. reflexivity. Qed.

(** What the loop of [selectInputs] returns when it has visited [pre] and
    still has [rest] to go. *)
Lemma selectInputs_loop_spec amt rest :
  forall pre,
    match selectInputs_loop amt (pre ++ rest) rest (length pre)
            (prefixTotal (pre ++ rest) (length pre)) with
    | OK (total, selected) =>
        exists k, (length pre < k <= length (pre ++ rest))%nat /\
          selected = firstn k (pre ++ rest) /\
          total = prefixTotal (pre ++ rest) k /\
          amt <= total /\
          forall j, (length pre < j < k)%nat -> prefixTotal (pre ++ rest) j < amt
    | Err e =>
        e = ErrInsufficientFunds amt (accumulate (pre ++ rest) 0) /\
        forall j, (length pre < j <= length (pre ++ rest))%nat ->
                  prefixTotal (pre ++ rest) j < amt
    end.
Proof.
  induction rest as [|c rest IH]; intros pre; simpl.
  - split.
    + rewrite app_nil_r. rewrite <- prefixTotal_all. reflexivity.
    + intros j Hj. rewrite app_nil_r in Hj. lia.
  - rewrite <- prefixTotal_S.
    destruct (prefixTotal (pre ++ c :: rest) (S (length pre)) >=? amt) eqn:Hge.
    + exists (S (length pre)). rewrite length_app. simpl.
      repeat split; try lia.
    + specialize (IH (pre ++ [c])).
      rewrite <- app_assoc in IH. simpl in IH.
      replace (length (pre ++ [c])) with (S (length pre)) in IH
        by (rewrite length_app; simpl; lia).
      destruct (selectInputs_loop _ _ _ _ _) as [[total selected]|e].
      * destruct IH as (k & Hk & Hsel & Htot & Hamt & Hlt).
        exists k. repeat split; try lia; try assumption.
        intros j Hj. destruct (decide (j = S (length pre))) as [->|Hne].
        -- lia.
        -- apply Hlt. lia.
      * destruct IH as (He & Hlt). split; [assumption|].
        intros j Hj. destruct (decide (j = S (length pre))) as [->|Hne].
        -- lia.
        -- apply Hlt. lia.
Qed.

(** [selectInputs] returns the shortest non-empty prefix of [coins] whose
    accumulated total reaches [amt], with that total. *)
Lemma selectInputs_OK amt coins total selected :
  selectInputs amt coins = OK (total, selected) ->
  exists k, (0 < k <= length coins)%nat /\
    selected = firstn k coins /\
    total = prefixTotal coins k /\
    amt <= total /\
    forall j, (0 < j < k)%nat -> prefixTotal coins j < amt.
Proof.
  intros H. pose proof (selectInputs_loop_spec amt coins []) as Hspec.
  simpl in Hspec. unfold selectInputs in H.
  change (prefixTotal coins 0) with 0 in Hspec.
  rewrite H in Hspec. exact Hspec.
Qed.

(** [selectInputs] fails exactly with the requested amount and the
    accumulated total of all the coins, none of the prefixes reaching the
    amount. *)
Lemma selectInputs_Err amt coins e :
  selectInputs amt coins = Err e ->
  e = ErrInsufficientFunds amt (accumulate coins 0) /\
  forall j, (0 < j <= length coins)%nat -> prefixTotal coins j < amt.
Proof.
  intros H. pose proof (selectInputs_loop_spec amt coins []) as Hspec.
  simpl in Hspec. unfold selectInputs in H.
  change (prefixTotal coins 0) with 0 in Hspec.
  rewrite H in Hspec. exact Hspec.
Qed.

(** ** Exact totals *)

Lemma sumValues_app l1 l2 : sumValues (l1 ++ l2) = sumValues l1 + sumValues l2.
Proof. induction l1 as [|c l1 IH]; simpl; lia. Qed.

Lemma sumValues_nonneg l :
  Forall (fun c => 0 <= Value (coinTxOut c)) l -> 0 <= sumValues l.
Proof. induction 1; simpl; lia. Qed.

Lemma accumulate_exact l :
  forall s,
    Forall (fun c => 0 <= Value (coinTxOut c)) l ->
    0 <= s -> s + sumValues l <= Int64.max_int ->
    accumulate l s = s + sumValues l.
Proof.
  induction l as [|c l IH]; intros s Hall Hs Hmax; simpl.
  - lia.
  - inversion Hall as [|? ? Hc Hl]; subst.
    pose proof (sumValues_nonneg l Hl) as Hnn. simpl in Hmax.
    rewrite add_small
      by (unfold Int64.in_range, Int64.min_int, Int64.max_int in *; lia).
    rewrite IH; try assumption; lia.
Qed.

Lemma sumValues_firstn_mono coins j k :
  Forall (fun c => 0 <= Value (coinTxOut c)) coins ->
  (j <= k)%nat ->
  sumValues (firstn j coins) <= sumValues (firstn k coins).
Proof.
  intros Hall Hjk.
  rewrite <- (firstn_skipn j (firstn k coins)).
  rewrite sumValues_app, firstn_firstn, Nat.min_l by assumption.
  assert (Forall (fun c => 0 <= Value (coinTxOut c)) (skipn j (firstn k coins)))
    as Hrest by (apply Forall_drop, Forall_take, Hall).
  pose proof (sumValues_nonneg _ Hrest). lia.
Qed.

Lemma sumValues_firstn_total coins k :
  Forall (fun c => 0 <= Value (coinTxOut c)) coins ->
  sumValues (firstn k coins) <= sumValues coins.
Proof.
  intros Hall. rewrite <- (firstn_skipn k coins) at 2.
  rewrite sumValues_app.
  pose proof (sumValues_nonneg (skipn k coins) (Forall_drop _ _ _ Hall)). lia.
Qed.

(** Within range, the machine total of a prefix is its exact total. *)
Lemma prefixTotal_exact coins k :
  valuesInRange coins -> prefixTotal coins k = sumValues (firstn k coins).
Proof.
  intros [Hall Hmax]. unfold prefixTotal.
  rewrite accumulate_exact.
  - lia.
  - apply Forall_take, Hall.
  - lia.
  - pose proof (sumValues_firstn_total coins k Hall). lia.
Qed.

Lemma prefix_bounds coins k :
  valuesInRange coins ->
  0 <= sumValues (firstn k coins) <= Int64.max_int.
Proof.
  intros [Hall Hmax].
  pose proof (sumValues_firstn_total coins k Hall).
  pose proof (sumValues_nonneg (firstn k coins) (Forall_take _ _ _ Hall)). lia.
Qed.

(** ** One pass of the loop of CoinSelect *)

Section Passes.

Context {env : FeeEnv}.
Implicit Types (feeRate amt dustLimit amtNeeded : Z) (coins : list Coin).

(** A pass restarts only when the overshoot is below the no-change fee, and
    then with the target [amt + requiredFeeNoChange]. *)
Lemma body_Continue_inv feeRate amt dustLimit coins amtNeeded amtNeeded' :
  CoinSelect_body feeRate amt dustLimit coins amtNeeded = Continue amtNeeded' ->
  exists totalSat selected requiredFeeNoChange requiredFeeWithChange,
    selectInputs amtNeeded coins = OK (totalSat, selected) /\
    calculateFees selected feeRate =
      OK (requiredFeeNoChange, requiredFeeWithChange) /\
    Int64.sub totalSat amt < requiredFeeNoChange /\
    amtNeeded' = Int64.add amt requiredFeeNoChange.
Proof.
  unfold CoinSelect_body. intros H.
  destruct (selectInputs amtNeeded coins) as [[totalSat selected]|e];
    [|discriminate].
  destruct (calculateFees selected feeRate) as [[fnc fwc]|e] eqn:Hfees;
    [|discriminate].
  destruct (Int64.sub totalSat amt <? fnc) eqn:Hlt.
  - injection H as <-. exists totalSat, selected, fnc, fwc.
    apply Z.ltb_lt in Hlt. auto.
  - destruct (sanityCheckFee _ _); discriminate.
Qed.

(** A pass that returns a selection went through the sanity check. *)
Lemma body_OK_inv feeRate amt dustLimit coins amtNeeded selected changeAmt :
  CoinSelect_body feeRate amt dustLimit coins amtNeeded =
    Return (OK (selected, changeAmt)) ->
  exists totalSat requiredFeeNoChange requiredFeeWithChange,
    selectInputs amtNeeded coins = OK (totalSat, selected) /\
    calculateFees selected feeRate =
      OK (requiredFeeNoChange, requiredFeeWithChange) /\
    requiredFeeNoChange <= Int64.sub totalSat amt /\
    changeAmt =
      changeAmount (Int64.sub totalSat amt) requiredFeeWithChange dustLimit /\
    Int64.sub totalSat (Int64.add amt changeAmt) <=
      Z.quot (Int64.add amt changeAmt) 5.
Proof.
  unfold CoinSelect_body, sanityCheckFee. intros H.
  destruct (selectInputs amtNeeded coins) as [[totalSat sel]|e];
    [|discriminate].
  destruct (calculateFees sel feeRate) as [[fnc fwc]|e] eqn:Hfees;
    [|discriminate].
  destruct (Int64.sub totalSat amt <? fnc) eqn:Hlt; [discriminate|].
  destruct (_ >? _) eqn:Hgt; [discriminate|].
  injection H as <- <-. exists totalSat, fnc, fwc.
  apply Z.ltb_ge in Hlt. rewrite Z.gtb_ltb in Hgt. apply Z.ltb_ge in Hgt.
  auto.
Qed.

(** The result of the loop is the result of its last pass. *)
Lemma loop_final fuel feeRate amt dustLimit coins :
  forall amtNeeded r,
    CoinSelect_loop fuel feeRate amt dustLimit coins amtNeeded = Some r ->
    exists target,
      finalTarget fuel feeRate amt dustLimit coins amtNeeded = Some target /\
      CoinSelect_body feeRate amt dustLimit coins target = Return r.
Proof.
  induction fuel as [|fuel IH]; intros amtNeeded r H; simpl in *.
  - discriminate.
  - destruct (CoinSelect_body feeRate amt dustLimit coins amtNeeded) eqn:Hbody.
    + apply IH, H.
    + injection H as <-. exists amtNeeded. split; [reflexivity|assumption].
Qed.

(** More passes do not change a result. *)
Lemma loop_more_fuel fuel feeRate amt dustLimit coins :
  forall fuel' amtNeeded r,
    (fuel <= fuel')%nat ->
    CoinSelect_loop fuel feeRate amt dustLimit coins amtNeeded = Some r ->
    CoinSelect_loop fuel' feeRate amt dustLimit coins amtNeeded = Some r.
Proof.
  induction fuel as [|fuel IH]; intros fuel' amtNeeded r Hle H; simpl in *.
  - discriminate.
  - destruct fuel' as [|fuel']; [lia|]. simpl.
    destruct (CoinSelect_body feeRate amt dustLimit coins amtNeeded).
    + apply IH; [lia|assumption].
    + assumption.
Qed.

(** The change a pass computes is nothing or at least the dust limit. *)
Lemma changeAmount_dust overShootAmt requiredFeeWithChange dustLimit :
  changeAmount overShootAmt requiredFeeWithChange dustLimit = 0 \/
  dustLimit <= changeAmount overShootAmt requiredFeeWithChange dustLimit.
Proof.
  unfold changeAmount.
  destruct (_ <? dustLimit) eqn:Hlt; [left; reflexivity|right; lia].
Qed.

End Passes.

(** ** Passes within range *)

Ltac in_range_lia :=
  unfold Int64.in_range, Int64.min_int, Int64.max_int in *; lia.

(** For a non-negative total, the truncated fifth bounds exactly the fees of
    at most 20%. *)
Lemma fifth_bound fee totalOut :
  0 <= totalOut -> (fee <= Z.quot totalOut 5 <-> 5 * fee <= totalOut).
Proof.
  intros H. rewrite Z.quot_div_nonneg by lia.
  pose proof (Z.div_mod totalOut 5 ltac:(lia)).
  pose proof (Z.mod_pos_bound totalOut 5 ltac:(lia)). lia.
Qed.

Section ExactPasses.

Context {env : FeeEnv}.

(** Within range, a selection made for a target is a prefix whose machine
    total is exact. *)
Lemma selectInputs_exact coins amtNeeded totalSat selected :
  valuesInRange coins ->
  selectInputs amtNeeded coins = OK (totalSat, selected) ->
  exists k, (0 < k <= length coins)%nat /\
    selected = firstn k coins /\
    totalSat = sumValues selected /\
    0 <= totalSat <= Int64.max_int /\
    amtNeeded <= totalSat /\
    forall j, (0 < j < k)%nat -> sumValues (firstn j coins) < amtNeeded.
Proof.
  intros Hvals Hsel.
  destruct (selectInputs_OK _ _ _ _ Hsel) as (k & Hk & -> & -> & Hge & Hlt).
  exists k. rewrite prefixTotal_exact in * by assumption.
  repeat split; try lia; try apply prefix_bounds; try assumption.
  intros j Hj. rewrite <- prefixTotal_exact by assumption. apply Hlt, Hj.
Qed.

(** Within range, the change of a pass: the overshoot less the with-change
    fee when that is positive and not dust, nothing otherwise. *)
Lemma changeAmount_exact overShootAmt requiredFeeWithChange dustLimit :
  0 <= requiredFeeWithChange ->
  overShootAmt <= Int64.max_int ->
  changeAmount overShootAmt requiredFeeWithChange dustLimit =
    if (requiredFeeWithChange <? overShootAmt) &&
       (dustLimit <=? overShootAmt - requiredFeeWithChange)
    then overShootAmt - requiredFeeWithChange
    else 0.
Proof.
  intros Hfee Hover. unfold changeAmount. rewrite Z.gtb_ltb.
  destruct (requiredFeeWithChange <? overShootAmt) eqn:Hgt; simpl.
  - apply Z.ltb_lt in Hgt. rewrite sub_small by in_range_lia.
    destruct (_ <? dustLimit) eqn:Hd, (dustLimit <=? _) eqn:Hd'; lia.
  - destruct (0 <? dustLimit); reflexivity.
Qed.

(** Within range, what a returning pass of [CoinSelect] has established, in
    exact arithmetic. *)
Lemma body_OK_exact feeRate amt dustLimit coins amtNeeded selected changeAmt :
  inRange feeRate amt dustLimit coins ->
  CoinSelect_body feeRate amt dustLimit coins amtNeeded =
    Return (OK (selected, changeAmt)) ->
  exists k requiredFeeNoChange requiredFeeWithChange,
    (0 < k <= length coins)%nat /\
    selected = firstn k coins /\
    calculateFees selected feeRate =
      OK (requiredFeeNoChange, requiredFeeWithChange) /\
    amtNeeded <= sumValues selected /\
    (forall j, (0 < j < k)%nat -> sumValues (firstn j coins) < amtNeeded) /\
    requiredFeeNoChange <= sumValues selected - amt /\
    changeAmt =
      (if (requiredFeeWithChange <? sumValues selected - amt) &&
          (dustLimit <=? sumValues selected - amt - requiredFeeWithChange)
       then sumValues selected - amt - requiredFeeWithChange
       else 0) /\
    5 * (sumValues selected - amt - changeAmt) <= amt + changeAmt.
Proof.
  intros HR Hbody.
  destruct (body_OK_inv _ _ _ _ _ _ _ Hbody)
    as (totalSat & fnc & fwc & Hsel & Hfees & Hnc & Hchange & Hcheck).
  destruct (selectInputs_exact _ _ _ _ (values_range _ _ _ _ HR) Hsel)
    as (k & Hk & Hpre & Htot & Hbound & Hge & Hlt).
  pose proof (amt_range _ _ _ _ HR) as Hamt.
  pose proof (fees_range _ _ _ _ HR k fnc fwc ltac:(lia)) as Hfr.
  rewrite <- Hpre in Hfr. specialize (Hfr Hfees).
  rewrite sub_small in * by in_range_lia.
  rewrite changeAmount_exact in Hchange by in_range_lia.
  subst totalSat.
  assert (0 <= changeAmt /\ amt + changeAmt <= sumValues selected) as Hc.
  { destruct (_ && _) eqn:Hb in Hchange.
    - apply andb_true_iff in Hb. lia.
    - lia. }
  rewrite add_small in Hcheck by in_range_lia.
  rewrite sub_small in Hcheck by in_range_lia.
  apply fifth_bound in Hcheck; [|lia].
  exists k, fnc, fwc.
  repeat split; try assumption; try lia.
Qed.

End ExactPasses.

(** ** CoinSelectSubtractFees *)

Section SubtractFees.

Context {env : FeeEnv}.

(** What a successful [CoinSelectSubtractFees] went through. *)
Lemma subtractFees_OK_inv feeRate amt dustLimit coins selected outputAmt changeAmt :
  CoinSelectSubtractFees feeRate amt dustLimit coins =
    OK (selected, outputAmt, changeAmt) ->
  exists totalSat requiredFeeNoChange requiredFeeWithChange,
    selectInputs amt coins = OK (totalSat, selected) /\
    calculateFees selected feeRate =
      OK (requiredFeeNoChange, requiredFeeWithChange) /\
    dustLimit <= Int64.sub totalSat requiredFeeNoChange /\
    (outputAmt, changeAmt) =
      (if (Int64.sub totalSat amt >=? dustLimit) &&
          (Int64.sub amt requiredFeeWithChange >=? dustLimit)
       then (Int64.sub amt requiredFeeWithChange, Int64.sub totalSat amt)
       else (Int64.sub totalSat requiredFeeNoChange, 0)) /\
    Int64.sub totalSat (Int64.add outputAmt changeAmt) <=
      Z.quot (Int64.add outputAmt changeAmt) 5.
Proof.
  unfold CoinSelectSubtractFees, sanityCheckFee. intros H.
  destruct (selectInputs amt coins) as [[totalSat sel]|e]; [|discriminate].
  destruct (calculateFees sel feeRate) as [[fnc fwc]|e] eqn:Hfees;
    [|discriminate].
  destruct (Int64.sub totalSat fnc <? dustLimit) eqn:Hdust; [discriminate|].
  destruct (_ && _) eqn:Hboth;
    (destruct (_ >? _) eqn:Hgt; [discriminate|]);
    injection H as <- <- <-; exists totalSat, fnc, fwc;
    apply Z.ltb_ge in Hdust; rewrite Z.gtb_ltb in Hgt; apply Z.ltb_ge in Hgt;
    rewrite Hboth; auto.
Qed.

(** Within range, the same in exact arithmetic. *)
Lemma subtractFees_OK_exact feeRate amt dustLimit coins selected outputAmt changeAmt :
  inRange feeRate amt dustLimit coins ->
  CoinSelectSubtractFees feeRate amt dustLimit coins =
    OK (selected, outputAmt, changeAmt) ->
  exists k requiredFeeNoChange requiredFeeWithChange,
    (0 < k <= length coins)%nat /\
    selected = firstn k coins /\
    calculateFees selected feeRate =
      OK (requiredFeeNoChange, requiredFeeWithChange) /\
    dustLimit <= sumValues selected - requiredFeeNoChange /\
    (outputAmt, changeAmt) =
      (if (dustLimit <=? sumValues selected - amt) &&
          (dustLimit <=? amt - requiredFeeWithChange)
       then (amt - requiredFeeWithChange, sumValues selected - amt)
       else (sumValues selected - requiredFeeNoChange, 0)) /\
    5 * (sumValues selected - outputAmt - changeAmt) <= outputAmt + changeAmt.
Proof.
  intros HR Hok.
  destruct (subtractFees_OK_inv _ _ _ _ _ _ _ Hok)
    as (totalSat & fnc & fwc & Hsel & Hfees & Hdust & Hout & Hcheck).
  destruct (selectInputs_exact _ _ _ _ (values_range _ _ _ _ HR) Hsel)
    as (k & Hk & Hpre & Htot & Hbound & Hge & Hlt).
  pose proof (amt_range _ _ _ _ HR) as Hamt.
  pose proof (dust_range _ _ _ _ HR) as Hd.
  pose proof (fees_range _ _ _ _ HR k fnc fwc ltac:(lia)) as Hfr.
  rewrite <- Hpre in Hfr. specialize (Hfr Hfees).
  subst totalSat.
  rewrite !Z.geb_leb in Hout.
  rewrite !sub_small in Hout by in_range_lia.
  rewrite sub_small in Hdust by in_range_lia.
  exists k, fnc, fwc. repeat split; try assumption; try lia.
  destruct (_ && _) eqn:Hboth in Hout.
  - apply andb_true_iff in Hboth. injection Hout as -> ->.
    rewrite add_small in Hcheck by in_range_lia.
    rewrite sub_small in Hcheck by in_range_lia.
    apply fifth_bound in Hcheck; lia.
  - injection Hout as -> ->.
    rewrite add_small in Hcheck by in_range_lia.
    rewrite sub_small in Hcheck by in_range_lia.
    apply fifth_bound in Hcheck; lia.
Qed.

End SubtractFees.

(** ** The loop of CoinSelect and its last pass *)

Section LastPass.

Context {env : FeeEnv}.

(** The pass at the final target is the one that returns. *)
Lemma finalTarget_loop fuel feeRate amt dustLimit coins :
  forall amtNeeded target,
    finalTarget fuel feeRate amt dustLimit coins amtNeeded = Some target ->
    exists r,
      CoinSelect_body feeRate amt dustLimit coins target = Return r /\
      CoinSelect_loop fuel feeRate amt dustLimit coins amtNeeded = Some r.
Proof.
  induction fuel as [|fuel IH]; intros amtNeeded target H; simpl in *.
  - discriminate.
  - destruct (CoinSelect_body feeRate amt dustLimit coins amtNeeded) eqn:Hbody.
    + apply IH, H.
    + injection H as <-. exists r. split; [assumption|reflexivity].
Qed.

(** A pass that selects, prices and does not restart returns what the sanity
    check decides. *)
Lemma body_checked feeRate amt dustLimit coins amtNeeded r
    totalSat selected requiredFeeNoChange requiredFeeWithChange :
  CoinSelect_body feeRate amt dustLimit coins amtNeeded = Return r ->
  selectInputs amtNeeded coins = OK (totalSat, selected) ->
  calculateFees selected feeRate =
    OK (requiredFeeNoChange, requiredFeeWithChange) ->
  let changeAmt :=
    changeAmount (Int64.sub totalSat amt) requiredFeeWithChange dustLimit in
  let totalOut := Int64.add amt changeAmt in
  requiredFeeNoChange <= Int64.sub totalSat amt /\
  r = match sanityCheckFee totalOut (Int64.sub totalSat totalOut) with
      | Some err => Err err
      | None => OK (selected, changeAmt)
      end.
Proof.
  unfold CoinSelect_body. intros Hbody Hsel Hfees.
  rewrite Hsel, Hfees in Hbody.
  destruct (_ <? requiredFeeNoChange) eqn:Hlt; [discriminate|].
  apply Z.ltb_ge in Hlt. simpl. split; [assumption|].
  destruct (sanityCheckFee _ _); injection Hbody as <-; reflexivity.
Qed.

End LastPass.

(** ** The cap on fees *)

(** C1, as the source has it.  Within range, a selection either mode
    returns pays a fee, the total selected value less the values of the
    outputs returned, of at most 20% of the values of those outputs; and
    when the result a call has arrived at (the selection of its last pass
    with the outputs computed for it) implies a larger fee, the call returns
    the fee sanity error in place of a selection.  The outputs are the
    requested amount and the change in [CoinSelect], and the output amount
    after fees and the change in [CoinSelectSubtractFees]. *)
Theorem fee_sanity_cap {env : FeeEnv} feeRate amt dustLimit coins :
  inRange feeRate amt dustLimit coins ->
  (forall fuel selected changeAmt,
     CoinSelect fuel feeRate amt dustLimit coins =
       Some (OK (selected, changeAmt)) ->
     5 * (sumValues selected - amt - changeAmt) <= amt + changeAmt) /\
  (forall selected outputAmt changeAmt,
     CoinSelectSubtractFees feeRate amt dustLimit coins =
       OK (selected, outputAmt, changeAmt) ->
     5 * (sumValues selected - outputAmt - changeAmt) <=
       outputAmt + changeAmt) /\
  (forall fuel target totalSat selected requiredFeeNoChange requiredFeeWithChange,
     finalTarget fuel feeRate amt dustLimit coins amt = Some target ->
     selectInputs target coins = OK (totalSat, selected) ->
     calculateFees selected feeRate =
       OK (requiredFeeNoChange, requiredFeeWithChange) ->
     let changeAmt :=
       changeAmount (totalSat - amt) requiredFeeWithChange dustLimit in
     amt + changeAmt < 5 * (totalSat - amt - changeAmt) ->
     CoinSelect fuel feeRate amt dustLimit coins =
       Some (Err (ErrFeeSanity (totalSat - amt - changeAmt) (amt + changeAmt)))) /\
  (forall totalSat selected requiredFeeNoChange requiredFeeWithChange,
     selectInputs amt coins = OK (totalSat, selected) ->
     calculateFees selected feeRate =
       OK (requiredFeeNoChange, requiredFeeWithChange) ->
     dustLimit <= totalSat - requiredFeeNoChange ->
     let outputs :=
       if (dustLimit <=? totalSat - amt) &&
          (dustLimit <=? amt - requiredFeeWithChange)
       then (amt - requiredFeeWithChange, totalSat - amt)
       else (totalSat - requiredFeeNoChange, 0) in
     fst outputs + snd outputs < 5 * (totalSat - fst outputs - snd outputs) ->
     CoinSelectSubtractFees feeRate amt dustLimit coins =
       Err (ErrFeeSanity (totalSat - fst outputs - snd outputs)
              (fst outputs + snd outputs))).
Proof.
  intros HR. pose proof (amt_range _ _ _ _ HR) as Hamt.
  pose proof (dust_range _ _ _ _ HR) as Hd.
  split; [|split; [|split]].
  - intros fuel selected changeAmt H.
    destruct (loop_final _ _ _ _ _ _ _ H) as (target & _ & Hbody).
    destruct (body_OK_exact _ _ _ _ _ _ _ HR Hbody)
      as (k & fnc & fwc & _ & _ & _ & _ & _ & _ & _ & Hcap).
    exact Hcap.
  - intros selected outputAmt changeAmt H.
    destruct (subtractFees_OK_exact _ _ _ _ _ _ _ HR H)
      as (k & fnc & fwc & _ & _ & _ & _ & _ & Hcap).
    exact Hcap.
  - intros fuel target totalSat selected fnc fwc Hfinal Hsel Hfees changeAmt Hfee.
    destruct (finalTarget_loop _ _ _ _ _ _ _ Hfinal) as (r & Hbody & Hloop).
    unfold CoinSelect. rewrite Hloop. f_equal.
    destruct (body_checked _ _ _ _ _ _ _ _ _ _ Hbody Hsel Hfees) as [Hnc Hr].
    destruct (selectInputs_exact _ _ _ _ (values_range _ _ _ _ HR) Hsel)
      as (k & Hk & Hpre & Htot & Hbound & Hge & Hlt).
    pose proof (fees_range _ _ _ _ HR k fnc fwc ltac:(lia)) as Hfr.
    rewrite <- Hpre in Hfr. specialize (Hfr Hfees).
    simpl in Hr. rewrite (sub_small totalSat amt) in Hr, Hnc by in_range_lia.
    fold changeAmt in Hr.
    assert (0 <= changeAmt /\ amt + changeAmt <= totalSat) as Hc.
    { unfold changeAmt. rewrite changeAmount_exact by in_range_lia.
      destruct (_ && _) eqn:Hb; [apply andb_true_iff in Hb|]; lia. }
    rewrite add_small in Hr by in_range_lia.
    rewrite sub_small in Hr by in_range_lia.
    unfold sanityCheckFee in Hr.
    destruct (_ >? _) eqn:Hgt in Hr.
    + rewrite Hr. f_equal. f_equal; lia.
    + rewrite Z.gtb_ltb in Hgt. apply Z.ltb_ge, fifth_bound in Hgt; lia.
  - intros totalSat selected fnc fwc Hsel Hfees Hdust outputs Hfee.
    destruct (selectInputs_exact _ _ _ _ (values_range _ _ _ _ HR) Hsel)
      as (k & Hk & Hpre & Htot & Hbound & Hge & Hlt).
    pose proof (fees_range _ _ _ _ HR k fnc fwc ltac:(lia)) as Hfr.
    rewrite <- Hpre in Hfr. specialize (Hfr Hfees).
    unfold CoinSelectSubtractFees. rewrite Hsel, Hfees.
    rewrite !Z.geb_leb. rewrite !sub_small by in_range_lia.
    destruct (_ <? dustLimit) eqn:Hlow; [lia|].
    fold outputs. unfold sanityCheckFee.
    assert (0 <= fst outputs + snd outputs <= totalSat /\
            0 <= fst outputs + snd outputs) as Hc.
    { unfold outputs.
      destruct (_ && _) eqn:Hb; [apply andb_true_iff in Hb|]; simpl; lia. }
    destruct outputs as [outputAmt changeAmt]. simpl in *.
    rewrite add_small by in_range_lia.
    rewrite sub_small by in_range_lia.
    destruct (_ >? _) eqn:Hgt.
    + f_equal. f_equal; lia.
    + rewrite Z.gtb_ltb in Hgt. apply Z.ltb_ge, fifth_bound in Hgt; lia.
Qed.

(** Discharges [inRange] for concrete candidates by running [calculateFees]
    on each of their prefixes. *)
Ltac decide_bounds :=
  vm_compute; repeat split; let Hd := fresh in intros Hd; discriminate Hd.

Ltac each_prefix k Hk H :=
  first
    [ solve [simpl in Hk; lia]
    | destruct k as [|k];
      [ vm_compute in H; injection H as <- <-; decide_bounds
      | each_prefix k Hk H ] ].

Ltac solve_inRange :=
  split;
  [ decide_bounds
  | decide_bounds
  | split; [repeat constructor; decide_bounds | decide_bounds]
  | let k := fresh "k" in
    let Hk := fresh "Hk" in
    let H := fresh "H" in
    intros k ? ? Hk H; each_prefix k Hk H ].

(** Scenario A is within range. *)
Lemma scenarioA_inRange :
  inRange (env := Lnd.env) Lnd.rateA 120000 500 Lnd.scenarioA.
Proof. solve_inRange. Defined.

(** Scenario A of the specification: both coins are selected, the fees are
    2000 without and 2326 with change, and the change of
    150000 - 120000 - 2326 is above the dust limit of 500. *)
Example scenarioA_selection :
  calculateFees (env := Lnd.env) Lnd.scenarioA Lnd.rateA = OK (2000, 2326) /\
  CoinSelect (env := Lnd.env) 1 Lnd.rateA 120000 500 Lnd.scenarioA =
    Some (OK (Lnd.scenarioA, 27674)).
Proof. vm_compute. split; reflexivity. Qed.

(** Scenario D is within range. *)
Lemma scenarioD_inRange :
  inRange (env := Lnd.env) Lnd.rateD Lnd.amtD 500 Lnd.scenarioA.
Proof. solve_inRange. Defined.

Lemma fee_sanity_cap_witness :
  (inRange (env := Lnd.env) Lnd.rateA 120000 500 Lnd.scenarioA /\
   5 * (sumValues Lnd.scenarioA - 120000 - 27674) <= 120000 + 27674) /\
  (inRange (env := Lnd.env) Lnd.rateD Lnd.amtD 500 Lnd.scenarioA /\
   CoinSelect (env := Lnd.env) 1 Lnd.rateD Lnd.amtD 500 Lnd.scenarioA =
     Some (Err (ErrFeeSanity 18330 81670))).
Proof.
  split; split.
  - exact scenarioA_inRange.
  - apply (proj1 (fee_sanity_cap Lnd.rateA 120000 500 Lnd.scenarioA
                    scenarioA_inRange) 1%nat Lnd.scenarioA 27674).
    vm_compute. reflexivity.
  - exact scenarioD_inRange.
  - apply (proj1 (proj2 (proj2 (fee_sanity_cap Lnd.rateD Lnd.amtD 500
                                  Lnd.scenarioA scenarioD_inRange)))
             1%nat Lnd.amtD 100000 (firstn 1 Lnd.scenarioA) 14610 18330
             eq_refl eq_refl eq_refl).
    vm_compute. reflexivity.
Defined.

(** In [CoinSelectSubtractFees] the requested amount is not what the fee is
    measured against: the lone coin of 1000 funds a request of 500 with no
    change; the total selected value less the requested amount and the
    change is 500, more than 20% of the requested amount plus the change, and
    the call returns a selection, with the output 877 and the fee 123. *)
Lemma subtractFees_cap_is_on_outputs :
  inRange (env := Lnd.env) Lnd.minRelayRate 500 600 Lnd.smallCoin /\
  CoinSelectSubtractFees (env := Lnd.env) Lnd.minRelayRate 500 600
    Lnd.smallCoin = OK (Lnd.smallCoin, 877, 0) /\
  5 * (sumValues Lnd.smallCoin - 500 - 0) > 500 + 0.
Proof.
  split; [solve_inRange|split].
  - vm_compute. reflexivity.
  - vm_compute. reflexivity.
Qed.

(** ** The dust failure of CoinSelectSubtractFees *)

(** C10. When [CoinSelectSubtractFees] has selected inputs and priced them,
    and the total selected value less the no-change fee is below the dust
    limit, it returns the below-dust error and no selection.  The difference
    is the [int64] one of the source; within range it is the exact one. *)
Theorem subtractFees_below_dust {env : FeeEnv} feeRate amt dustLimit coins
    totalSat selected requiredFeeNoChange requiredFeeWithChange :
  selectInputs amt coins = OK (totalSat, selected) ->
  calculateFees selected feeRate =
    OK (requiredFeeNoChange, requiredFeeWithChange) ->
  (Int64.sub totalSat requiredFeeNoChange < dustLimit ->
   CoinSelectSubtractFees feeRate amt dustLimit coins =
     Err (ErrBelowDust (Int64.sub totalSat requiredFeeNoChange)
            requiredFeeNoChange dustLimit)) /\
  (inRange feeRate amt dustLimit coins ->
   Int64.sub totalSat requiredFeeNoChange =
     sumValues selected - requiredFeeNoChange).
Proof.
  intros Hsel Hfees. split.
  - intros Hlow. unfold CoinSelectSubtractFees. rewrite Hsel, Hfees.
    apply Z.ltb_lt in Hlow. rewrite Hlow. reflexivity.
  - intros HR.
    destruct (selectInputs_exact _ _ _ _ (values_range _ _ _ _ HR) Hsel)
      as (k & Hk & Hpre & Htot & Hbound & Hge & Hlt).
    pose proof (amt_range _ _ _ _ HR) as Hamt.
    pose proof (fees_range _ _ _ _ HR k requiredFeeNoChange
                  requiredFeeWithChange ltac:(lia)) as Hfr.
    rewrite <- Hpre in Hfr. specialize (Hfr Hfees).
    subst totalSat. apply sub_small. in_range_lia.
Qed.

Lemma subtractFees_below_dust_witness :
  CoinSelectSubtractFees (env := Lnd.env) Lnd.minRelayRate 500 900
    Lnd.smallCoin = Err (ErrBelowDust 877 123 900).
Proof.
  apply (proj1 (subtractFees_below_dust (env := Lnd.env) Lnd.minRelayRate 500
                  900 Lnd.smallCoin 1000 Lnd.smallCoin 123 154
                  eq_refl eq_refl)).
  vm_compute. reflexivity.
Defined.

(** ** Change and dust *)

Section Dust.

Context {env : FeeEnv}.

(** Whether a pass restarts, and with which target, does not depend on the
    dust limit. *)
Lemma body_Continue_dust feeRate amt dustLimit dustLimit' coins amtNeeded amtNeeded' :
  CoinSelect_body feeRate amt dustLimit coins amtNeeded = Continue amtNeeded' ->
  CoinSelect_body feeRate amt dustLimit' coins amtNeeded = Continue amtNeeded'.
Proof.
  intros H.
  destruct (body_Continue_inv _ _ _ _ _ _ H)
    as (totalSat & sel & fnc & fwc & Hsel & Hfees & Hlt & ->).
  unfold CoinSelect_body. rewrite Hsel, Hfees.
  apply Z.ltb_lt in Hlt. rewrite Hlt. reflexivity.
Qed.

Lemma body_Return_dust feeRate amt dustLimit dustLimit' coins amtNeeded r :
  CoinSelect_body feeRate amt dustLimit coins amtNeeded = Return r ->
  exists r', CoinSelect_body feeRate amt dustLimit' coins amtNeeded = Return r'.
Proof.
  intros H.
  destruct (CoinSelect_body feeRate amt dustLimit' coins amtNeeded)
    as [amtNeeded'|r'] eqn:H'.
  - apply (body_Continue_dust _ _ _ dustLimit) in H'. congruence.
  - exists r'. reflexivity.
Qed.

(** The inputs [CoinSelect] selects do not depend on the dust limit. *)
Lemma loop_selected_dust fuel feeRate amt dustLimit dustLimit' coins :
  forall fuel' amtNeeded selected changeAmt selected' changeAmt',
    CoinSelect_loop fuel feeRate amt dustLimit coins amtNeeded =
      Some (OK (selected, changeAmt)) ->
    CoinSelect_loop fuel' feeRate amt dustLimit' coins amtNeeded =
      Some (OK (selected', changeAmt')) ->
    selected' = selected.
Proof.
  induction fuel as [|fuel IH];
    intros fuel' amtNeeded sel chg sel' chg' H H'; simpl in H.
  - discriminate.
  - destruct fuel' as [|fuel']; [discriminate|]. simpl in H'.
    destruct (CoinSelect_body feeRate amt dustLimit coins amtNeeded)
      as [next|r] eqn:Hbody.
    + rewrite (body_Continue_dust _ _ _ dustLimit' _ _ _ Hbody) in H'.
      eapply IH; eassumption.
    + destruct (body_Return_dust _ _ _ dustLimit' _ _ _ Hbody) as [r' Hbody'].
      rewrite Hbody' in H'. injection H as ->. injection H' as ->.
      destruct (body_OK_inv _ _ _ _ _ _ _ Hbody) as (t & ? & ? & Hs & _).
      destruct (body_OK_inv _ _ _ _ _ _ _ Hbody') as (t' & ? & ? & Hs' & _).
      congruence.
Qed.

End Dust.

(** C6. The change a successful selection returns, in either mode, is 0 or
    at least the dust limit.  In [CoinSelect] the change computed from the
    overshoot of the last pass is returned as it is when it reaches the dust
    limit and as 0 when it is below it, and the selected inputs are the same
    whatever the dust limit. *)
Theorem change_zero_or_above_dust {env : FeeEnv} feeRate amt dustLimit coins :
  (forall fuel selected changeAmt,
     CoinSelect fuel feeRate amt dustLimit coins =
       Some (OK (selected, changeAmt)) ->
     (changeAmt = 0 \/ dustLimit <= changeAmt) /\
     exists target totalSat requiredFeeNoChange requiredFeeWithChange,
       finalTarget fuel feeRate amt dustLimit coins amt = Some target /\
       selectInputs target coins = OK (totalSat, selected) /\
       calculateFees selected feeRate =
         OK (requiredFeeNoChange, requiredFeeWithChange) /\
       let overShootAmt := Int64.sub totalSat amt in
       let computed :=
         if overShootAmt >? requiredFeeWithChange
         then Int64.sub overShootAmt requiredFeeWithChange else 0 in
       (computed < dustLimit -> changeAmt = 0) /\
       (dustLimit <= computed -> changeAmt = computed)) /\
  (forall selected outputAmt changeAmt,
     CoinSelectSubtractFees feeRate amt dustLimit coins =
       OK (selected, outputAmt, changeAmt) ->
     changeAmt = 0 \/ dustLimit <= changeAmt) /\
  (forall fuel fuel' dustLimit' selected changeAmt selected' changeAmt',
     CoinSelect fuel feeRate amt dustLimit coins =
       Some (OK (selected, changeAmt)) ->
     CoinSelect fuel' feeRate amt dustLimit' coins =
       Some (OK (selected', changeAmt')) ->
     selected' = selected).
Proof.
  split; [|split].
  - intros fuel selected changeAmt H.
    destruct (loop_final _ _ _ _ _ _ _ H) as (target & Hfinal & Hbody).
    destruct (body_OK_inv _ _ _ _ _ _ _ Hbody)
      as (totalSat & fnc & fwc & Hsel & Hfees & Hnc & -> & Hcheck).
    split; [apply changeAmount_dust|].
    exists target, totalSat, fnc, fwc.
    repeat (split; [assumption|]).
    unfold changeAmount. simpl.
    split; intros Hd.
    + apply Z.ltb_lt in Hd. rewrite Hd. reflexivity.
    + apply Z.ltb_ge in Hd. rewrite Hd. reflexivity.
  - intros selected outputAmt changeAmt H.
    destruct (subtractFees_OK_inv _ _ _ _ _ _ _ H)
      as (totalSat & fnc & fwc & _ & _ & _ & Hout & _).
    destruct (_ && _) eqn:Hboth in Hout.
    + apply andb_true_iff in Hboth. injection Hout as -> ->. right. lia.
    + injection Hout as -> ->. left. reflexivity.
  - intros fuel fuel' dustLimit' sel chg sel' chg' H H'.
    eapply loop_selected_dust; eassumption.
Qed.

Lemma change_zero_or_above_dust_witness :
  (27674 = 0 \/ 500 <= 27674) /\
  (forall fuel' dustLimit' selected' changeAmt',
     CoinSelect (env := Lnd.env) fuel' Lnd.rateA 120000 dustLimit'
       Lnd.scenarioA = Some (OK (selected', changeAmt')) ->
     selected' = Lnd.scenarioA).
Proof.
  pose proof (change_zero_or_above_dust (env := Lnd.env) Lnd.rateA 120000 500
                Lnd.scenarioA) as (Hcs & _ & Hsame).
  split.
  - apply (Hcs 1%nat Lnd.scenarioA 27674). vm_compute. reflexivity.
  - intros fuel' dustLimit' selected' changeAmt'.
    apply (Hsame 1%nat fuel' dustLimit' Lnd.scenarioA 27674).
    vm_compute. reflexivity.
Defined.

(** ** The fee a selection pays *)

(** C3, as the source has it.  The code compares no fee with zero, so what
    a selection pays follows the two fee estimates.  Under [inRange], which
    besides the absence of overflow asks that the two estimates of every
    prefix of the candidates be non-negative, the fee a successful selection
    pays, the total selected value less the output values, is at least the
    smaller of the two fee estimates of the selected inputs, and so
    non-negative.  In [CoinSelect] it is the with-change estimate when
    change is returned and at least the no-change estimate when it is not;
    in [CoinSelectSubtractFees] it is one of the two estimates.  It is
    positive when both estimates are, which no fee rate guarantees. *)
Theorem fee_at_least_estimate {env : FeeEnv} feeRate amt dustLimit coins :
  inRange feeRate amt dustLimit coins ->
  (forall fuel selected changeAmt,
     CoinSelect fuel feeRate amt dustLimit coins =
       Some (OK (selected, changeAmt)) ->
     exists requiredFeeNoChange requiredFeeWithChange,
       calculateFees selected feeRate =
         OK (requiredFeeNoChange, requiredFeeWithChange) /\
       let fee := sumValues selected - (amt + changeAmt) in
       (changeAmt <> 0 -> fee = requiredFeeWithChange) /\
       (changeAmt = 0 -> requiredFeeNoChange <= fee) /\
       Z.min requiredFeeNoChange requiredFeeWithChange <= fee /\
       0 <= fee /\
       (0 < requiredFeeNoChange -> 0 < requiredFeeWithChange -> 0 < fee)) /\
  (forall selected outputAmt changeAmt,
     CoinSelectSubtractFees feeRate amt dustLimit coins =
       OK (selected, outputAmt, changeAmt) ->
     exists requiredFeeNoChange requiredFeeWithChange,
       calculateFees selected feeRate =
         OK (requiredFeeNoChange, requiredFeeWithChange) /\
       let fee := sumValues selected - (outputAmt + changeAmt) in
       (fee = requiredFeeNoChange \/ fee = requiredFeeWithChange) /\
       Z.min requiredFeeNoChange requiredFeeWithChange <= fee /\
       0 <= fee /\
       (0 < requiredFeeNoChange -> 0 < requiredFeeWithChange -> 0 < fee)).
Proof.
  intros HR. split.
  - intros fuel selected changeAmt H.
    destruct (loop_final _ _ _ _ _ _ _ H) as (target & _ & Hbody).
    destruct (body_OK_exact _ _ _ _ _ _ _ HR Hbody)
      as (k & fnc & fwc & Hk & Hpre & Hfees & _ & _ & Hnc & Hchange & _).
    pose proof (fees_range _ _ _ _ HR k fnc fwc ltac:(lia)) as Hfr.
    rewrite <- Hpre in Hfr. specialize (Hfr Hfees).
    exists fnc, fwc. split; [assumption|]. simpl.
    destruct (_ && _) eqn:Hb in Hchange.
    + apply andb_true_iff in Hb. repeat split; lia.
    + repeat split; lia.
  - intros selected outputAmt changeAmt H.
    destruct (subtractFees_OK_exact _ _ _ _ _ _ _ HR H)
      as (k & fnc & fwc & Hk & Hpre & Hfees & _ & Hout & _).
    pose proof (fees_range _ _ _ _ HR k fnc fwc ltac:(lia)) as Hfr.
    rewrite <- Hpre in Hfr. specialize (Hfr Hfees).
    exists fnc, fwc. split; [assumption|]. simpl.
    destruct (_ && _) eqn:Hb in Hout; injection Hout as -> ->.
    + repeat split; lia.
    + repeat split; lia.
Qed.

Lemma fee_at_least_estimate_witness :
  inRange (env := Lnd.env) Lnd.rateA 120000 500 Lnd.scenarioA /\
  exists requiredFeeNoChange requiredFeeWithChange,
    calculateFees (env := Lnd.env) Lnd.scenarioA Lnd.rateA =
      OK (requiredFeeNoChange, requiredFeeWithChange) /\
    let fee := sumValues Lnd.scenarioA - (120000 + 27674) in
    (27674 <> 0 -> fee = requiredFeeWithChange) /\
    (27674 = 0 -> requiredFeeNoChange <= fee) /\
    Z.min requiredFeeNoChange requiredFeeWithChange <= fee /\
    0 <= fee /\
    (0 < requiredFeeNoChange -> 0 < requiredFeeWithChange -> 0 < fee).
Proof.
  split; [exact scenarioA_inRange|].
  apply (proj1 (fee_at_least_estimate Lnd.rateA 120000 500 Lnd.scenarioA
                  scenarioA_inRange) 1%nat Lnd.scenarioA 27674).
  vm_compute. reflexivity.
Defined.

(** At fee rate 0 a selection succeeds, within range, and pays no fee: the
    total selected value equals the output value. *)
Lemma zero_fee_selection :
  inRange (env := Lnd.env) 0 1000 0 Lnd.smallCoin /\
  CoinSelect (env := Lnd.env) 1 0 1000 0 Lnd.smallCoin =
    Some (OK (Lnd.smallCoin, 0)) /\
  ~ (sumValues Lnd.smallCoin > 1000 + 0).
Proof.
  split; [solve_inRange|split].
  - vm_compute. reflexivity.
  - vm_compute. intros H. discriminate H.
Qed.

(** The condition on the estimates cannot be dropped.  At a negative fee
    rate both estimates are negative, so the preconditions fail, and both
    functions return a selection whose outputs exceed its inputs: one coin
    of 1000 funds outputs of 1154. *)
Example negative_rate_negative_fee :
  calculateFees (env := Lnd.env) Lnd.smallCoin (-253) = OK (-123, -154) /\
  ~ inRange (env := Lnd.env) (-253) 1000 0 Lnd.smallCoin /\
  CoinSelect (env := Lnd.env) 1 (-253) 1000 0 Lnd.smallCoin =
    Some (OK (Lnd.smallCoin, 154)) /\
  CoinSelectSubtractFees (env := Lnd.env) (-253) 1000 0 Lnd.smallCoin =
    OK (Lnd.smallCoin, 1154, 0) /\
  sumValues Lnd.smallCoin - (1000 + 154) = -154 /\
  sumValues Lnd.smallCoin - (1154 + 0) = -154.
Proof.
  split; [vm_compute; reflexivity|].
  split.
  - intros HR.
    pose proof (fees_range _ _ _ _ HR 1%nat (-123) (-154)
                  ltac:(simpl; lia) ltac:(vm_compute; reflexivity)) as Hfr.
    lia.
  - repeat split; vm_compute; reflexivity.
Qed.

(** ** The outputs of CoinSelectSubtractFees *)

(** C5, as the source has it.  Within range, a successful
    [CoinSelectSubtractFees] returns a change output exactly when the reduced
    output, the requested amount less the with-change fee, and the leftover,
    the total selected value less the requested amount, are both at least the
    dust limit; the outputs are then these two amounts.  Otherwise there is no
    change and the single output is the total selected value less the
    no-change fee. *)
Theorem subtractFees_outputs {env : FeeEnv} feeRate amt dustLimit coins
    selected outputAmt changeAmt :
  inRange feeRate amt dustLimit coins ->
  CoinSelectSubtractFees feeRate amt dustLimit coins =
    OK (selected, outputAmt, changeAmt) ->
  exists requiredFeeNoChange requiredFeeWithChange,
    calculateFees selected feeRate =
      OK (requiredFeeNoChange, requiredFeeWithChange) /\
    let newOutput := amt - requiredFeeWithChange in
    let newChange := sumValues selected - amt in
    (dustLimit <= newOutput /\ dustLimit <= newChange ->
     outputAmt = newOutput /\ changeAmt = newChange) /\
    (~ (dustLimit <= newOutput /\ dustLimit <= newChange) ->
     outputAmt = sumValues selected - requiredFeeNoChange /\ changeAmt = 0) /\
    (0 < dustLimit ->
     (changeAmt <> 0 <-> dustLimit <= newOutput /\ dustLimit <= newChange)).
Proof.
  intros HR H.
  destruct (subtractFees_OK_exact _ _ _ _ _ _ _ HR H)
    as (k & fnc & fwc & Hk & Hpre & Hfees & _ & Hout & _).
  exists fnc, fwc. split; [assumption|]. simpl.
  destruct (_ && _) eqn:Hb in Hout; injection Hout as -> ->.
  - apply andb_true_iff in Hb. repeat split; lia.
  - apply andb_false_iff in Hb. repeat split; lia.
Qed.

Lemma subtractFees_outputs_witness :
  inRange (env := Lnd.env) Lnd.rateA 120000 500 Lnd.scenarioA /\
  exists requiredFeeNoChange requiredFeeWithChange,
    calculateFees (env := Lnd.env) Lnd.scenarioA Lnd.rateA =
      OK (requiredFeeNoChange, requiredFeeWithChange) /\
    let newOutput := 120000 - requiredFeeWithChange in
    let newChange := sumValues Lnd.scenarioA - 120000 in
    (500 <= newOutput /\ 500 <= newChange ->
     117674 = newOutput /\ 30000 = newChange) /\
    (~ (500 <= newOutput /\ 500 <= newChange) ->
     117674 = sumValues Lnd.scenarioA - requiredFeeNoChange /\ 30000 = 0) /\
    (0 < 500 ->
     (30000 <> 0 <-> 500 <= newOutput /\ 500 <= newChange)).
Proof.
  split; [exact scenarioA_inRange|].
  apply (subtractFees_outputs Lnd.rateA 120000 500 Lnd.scenarioA
           Lnd.scenarioA 117674 30000 scenarioA_inRange).
  vm_compute. reflexivity.
Defined.

(** A leftover below the dust limit: the lone coin of 1000 funds a request of
    500, no change is returned, and the single output is 1000 less the
    no-change fee of 123, not 500 less that fee. *)
Lemma subtractFees_output_is_total_less_fee :
  inRange (env := Lnd.env) Lnd.minRelayRate 500 600 Lnd.smallCoin /\
  calculateFees (env := Lnd.env) Lnd.smallCoin Lnd.minRelayRate =
    OK (123, 154) /\
  CoinSelectSubtractFees (env := Lnd.env) Lnd.minRelayRate 500 600
    Lnd.smallCoin = OK (Lnd.smallCoin, 877, 0) /\
  877 <> 500 - 123.
Proof.
  split; [solve_inRange|split; [|split]].
  - vm_compute. reflexivity.
  - vm_compute. reflexivity.
  - lia.
Qed.

(** ** Insufficient funds *)

Section Insufficient.

Context {env : FeeEnv}.

(** When no prefix reaches the target, [selectInputs] fails with the target
    and the accumulated total of all the candidates. *)
Lemma selectInputs_exhausted target coins :
  (forall j, (0 < j <= length coins)%nat -> prefixTotal coins j < target) ->
  selectInputs target coins =
    Err (ErrInsufficientFunds target (accumulate coins 0)).
Proof.
  intros Hlt. destruct (selectInputs target coins) as [[total sel]|e] eqn:H.
  - destruct (selectInputs_OK _ _ _ _ H) as (k & Hk & _ & -> & Hge & _).
    specialize (Hlt k ltac:(lia)). lia.
  - destruct (selectInputs_Err _ _ _ H) as [-> _]. reflexivity.
Qed.

(** Within range, the candidates are exhausted when there are none or their
    total is below the target, and the accumulated total is the exact one. *)
Lemma exhausted_exact target coins :
  valuesInRange coins ->
  coins = [] \/ sumValues coins < target ->
  accumulate coins 0 = sumValues coins /\
  forall j, (0 < j <= length coins)%nat -> prefixTotal coins j < target.
Proof.
  intros Hvals Hlow. split.
  - rewrite <- prefixTotal_all, prefixTotal_exact, firstn_all by assumption.
    reflexivity.
  - intros j Hj. destruct Hlow as [->|Hlow]; [simpl in Hj; lia|].
    rewrite prefixTotal_exact by assumption.
    pose proof (sumValues_firstn_total coins j (proj1 Hvals)). lia.
Qed.

End Insufficient.

(** C4. Within range, when the candidates run out before their accumulated
    value reaches the working target (there are none, or their total is
    below it), selection fails with [ErrInsufficientFunds] carrying the
    target, which its message reports as needed, and the total value of all
    the candidates, which its message reports as available: so does
    [selectInputs], so does the pass of [CoinSelect] with that working
    target, and so do [CoinSelect] and [CoinSelectSubtractFees] asked for
    that amount.  Candidates that total 50000 against a target of 120000 give
    the error with 120000 needed and 50000 available. *)
Theorem insufficient_funds {env : FeeEnv} feeRate amt dustLimit coins :
  valuesInRange coins ->
  (forall target,
     coins = [] \/ sumValues coins < target ->
     let e := ErrInsufficientFunds target (sumValues coins) in
     reportedNeed e = Some target /\
     reportedHave e = Some (sumValues coins) /\
     selectInputs target coins = Err e /\
     CoinSelect_body feeRate amt dustLimit coins target = Return (Err e) /\
     (forall fuel,
        CoinSelect (S fuel) feeRate target dustLimit coins = Some (Err e)) /\
     CoinSelectSubtractFees feeRate target dustLimit coins = Err e) /\
  (sumValues coins = 50000 ->
   selectInputs 120000 coins = Err (ErrInsufficientFunds 120000 50000) /\
   (forall fuel,
      CoinSelect (S fuel) feeRate 120000 dustLimit coins =
        Some (Err (ErrInsufficientFunds 120000 50000))) /\
   CoinSelectSubtractFees feeRate 120000 dustLimit coins =
     Err (ErrInsufficientFunds 120000 50000)).
Proof.
  intros Hvals.
  assert (forall target,
     coins = [] \/ sumValues coins < target ->
     selectInputs target coins =
       Err (ErrInsufficientFunds target (sumValues coins))) as Hsel.
  { intros target Hlow.
    destruct (exhausted_exact target coins Hvals Hlow) as [Hacc Hlt].
    rewrite <- Hacc. apply selectInputs_exhausted, Hlt. }
  assert (forall target,
     coins = [] \/ sumValues coins < target ->
     forall fuel,
       CoinSelect (S fuel) feeRate target dustLimit coins =
         Some (Err (ErrInsufficientFunds target (sumValues coins)))) as Hcs.
  { intros target Hlow fuel. unfold CoinSelect. simpl.
    unfold CoinSelect_body. rewrite (Hsel target Hlow). reflexivity. }
  assert (forall target,
     coins = [] \/ sumValues coins < target ->
     CoinSelectSubtractFees feeRate target dustLimit coins =
       Err (ErrInsufficientFunds target (sumValues coins))) as Hsf.
  { intros target Hlow. unfold CoinSelectSubtractFees.
    rewrite (Hsel target Hlow). reflexivity. }
  split.
  - intros target Hlow e. subst e.
    repeat split; auto.
    unfold CoinSelect_body. rewrite (Hsel target Hlow). reflexivity.
  - intros Htotal.
    assert (coins = [] \/ sumValues coins < 120000) as Hlow by lia.
    rewrite <- Htotal. auto.
Qed.

Lemma insufficient_funds_witness :
  valuesInRange [Lnd.coin 20000 0; Lnd.coin 30000 1] /\
  CoinSelect (env := Lnd.env) 1 Lnd.rateA 120000 500
    [Lnd.coin 20000 0; Lnd.coin 30000 1] =
    Some (Err (ErrInsufficientFunds 120000 50000)).
Proof.
  assert (valuesInRange [Lnd.coin 20000 0; Lnd.coin 30000 1]) as Hvals.
  { split; [repeat constructor; simpl; lia|vm_compute; discriminate]. }
  split; [exact Hvals|].
  apply (proj2 (insufficient_funds (env := Lnd.env) Lnd.rateA 120000 500
                  [Lnd.coin 20000 0; Lnd.coin 30000 1] Hvals)).
  reflexivity.
Defined.

(** ** Restarts and termination *)

Section Restarts.

Context {env : FeeEnv}.

Lemma inRange_targets feeRate amt dustLimit coins :
  inRange feeRate amt dustLimit coins -> targetsInRange feeRate amt coins.
Proof.
  intros HR. split.
  - apply (amt_range _ _ _ _ HR).
  - apply (values_range _ _ _ _ HR).
  - intros k fnc fwc Hk Hfees.
    pose proof (amt_range _ _ _ _ HR).
    pose proof (fees_range _ _ _ _ HR k fnc fwc Hk Hfees). in_range_lia.
Qed.

(** Within range, a restart: the overshoot of the selection is below the
    no-change fee, and the new target is the requested amount plus that fee,
    above the total just selected. *)
Lemma body_Continue_exact feeRate amt dustLimit coins amtNeeded amtNeeded' :
  targetsInRange feeRate amt coins ->
  CoinSelect_body feeRate amt dustLimit coins amtNeeded = Continue amtNeeded' ->
  exists k requiredFeeNoChange requiredFeeWithChange,
    (0 < k <= length coins)%nat /\
    selectInputs amtNeeded coins =
      OK (sumValues (firstn k coins), firstn k coins) /\
    calculateFees (firstn k coins) feeRate =
      OK (requiredFeeNoChange, requiredFeeWithChange) /\
    amtNeeded <= sumValues (firstn k coins) /\
    (forall j, (0 < j < k)%nat -> sumValues (firstn j coins) < amtNeeded) /\
    sumValues (firstn k coins) - amt < requiredFeeNoChange /\
    amtNeeded' = amt + requiredFeeNoChange.
Proof.
  intros HR H.
  destruct (body_Continue_inv _ _ _ _ _ _ H)
    as (totalSat & sel & fnc & fwc & Hsel & Hfees & Hlt & ->).
  destruct (selectInputs_exact _ _ _ _ (target_values_range _ _ _ HR) Hsel)
    as (k & Hk & -> & -> & Hbound & Hge & Hshort).
  pose proof (target_amt_range _ _ _ HR) as Hamt.
  pose proof (target_fees_range _ _ _ HR k fnc fwc ltac:(lia) Hfees) as Hfr.
  rewrite sub_small in Hlt by in_range_lia.
  rewrite add_small by in_range_lia.
  exists k, fnc, fwc. repeat split; try assumption; lia.
Qed.

(** Within range, a pass whose selection overshoots by less than the
    no-change fee restarts. *)
Lemma body_restarts feeRate amt dustLimit coins amtNeeded
    totalSat selected requiredFeeNoChange requiredFeeWithChange :
  targetsInRange feeRate amt coins ->
  selectInputs amtNeeded coins = OK (totalSat, selected) ->
  calculateFees selected feeRate =
    OK (requiredFeeNoChange, requiredFeeWithChange) ->
  totalSat - amt < requiredFeeNoChange ->
  CoinSelect_body feeRate amt dustLimit coins amtNeeded =
    Continue (amt + requiredFeeNoChange).
Proof.
  intros HR Hsel Hfees Hlt.
  destruct (selectInputs_exact _ _ _ _ (target_values_range _ _ _ HR) Hsel)
    as (k & Hk & Hpre & Htot & Hbound & Hge & Hshort).
  pose proof (target_amt_range _ _ _ HR) as Hamt.
  pose proof (target_fees_range _ _ _ HR k requiredFeeNoChange
                requiredFeeWithChange ltac:(lia)) as Hfr.
  rewrite <- Hpre in Hfr. specialize (Hfr Hfees).
  unfold CoinSelect_body. rewrite Hsel, Hfees.
  rewrite sub_small by in_range_lia.
  apply Z.ltb_lt in Hlt. rewrite Hlt.
  rewrite add_small by in_range_lia. reflexivity.
Qed.

(** With [k0] prefixes known to fall short of the target and as many passes
    left as there are longer prefixes, plus one, the loop returns. *)
Lemma loop_terminates feeRate amt dustLimit coins :
  targetsInRange feeRate amt coins ->
  forall f k0 amtNeeded,
    (length coins <= k0 + f)%nat ->
    (forall j, (0 < j <= k0)%nat -> sumValues (firstn j coins) < amtNeeded) ->
    exists r n,
      CoinSelect_loop (S f) feeRate amt dustLimit coins amtNeeded = Some r /\
      restarts (S f) feeRate amt dustLimit coins amtNeeded = Some n /\
      (n <= f)%nat.
Proof.
  intros HR. pose proof (target_values_range _ _ _ HR) as [Hall _].
  induction f as [|f IH]; intros k0 amtNeeded Hfuel Hshort;
    cbn [CoinSelect_loop restarts];
    destruct (CoinSelect_body feeRate amt dustLimit coins amtNeeded)
      as [next|r] eqn:Hbody;
    try (exists r, 0%nat; repeat split; lia).
  - destruct (body_Continue_exact _ _ _ _ _ _ HR Hbody)
      as (k & fnc & fwc & Hk & _ & _ & Hge & _).
    destruct (decide (k <= k0)%nat) as [Hle|Hgt].
    + specialize (Hshort k ltac:(lia)). lia.
    + lia.
  - destruct (body_Continue_exact _ _ _ _ _ _ HR Hbody)
      as (k & fnc & fwc & Hk & _ & _ & Hge & _ & Hlt & ->).
    assert (k0 < k)%nat as Hgt.
    { destruct (decide (k <= k0)%nat) as [Hle|Hgt]; [|lia].
      specialize (Hshort k ltac:(lia)). lia. }
    destruct (IH k (amt + fnc)) as (r & n & Hloop & Hn & Hle).
    + lia.
    + intros j Hj.
      pose proof (sumValues_firstn_mono coins j k Hall ltac:(lia)). lia.
    + exists r, (S n). cbn [CoinSelect_loop restarts] in *.
      rewrite Hloop, Hn. repeat split. lia.
Qed.

(** The final target is the requested amount or that amount plus the
    no-change fee of a prefix of the candidates. *)
Lemma finalTarget_ge feeRate amt dustLimit coins :
  inRange feeRate amt dustLimit coins ->
  forall fuel amtNeeded target,
    amt <= amtNeeded ->
    finalTarget fuel feeRate amt dustLimit coins amtNeeded = Some target ->
    amt <= target.
Proof.
  intros HR. induction fuel as [|fuel IH]; intros amtNeeded target Hge H;
    simpl in H; [discriminate|].
  destruct (CoinSelect_body feeRate amt dustLimit coins amtNeeded)
    as [next|r] eqn:Hbody.
  - destruct (body_Continue_exact _ _ _ _ _ _ (inRange_targets _ _ _ _ HR)
                Hbody)
      as (k & fnc & fwc & Hk & _ & Hfees & _ & _ & _ & ->).
    pose proof (fees_range _ _ _ _ HR k fnc fwc ltac:(lia) Hfees).
    apply (IH (amt + fnc)); [lia|assumption].
  - injection H as <-. assumption.
Qed.

End Restarts.

(** C7, as the source has it.  With amounts within range (a non-negative
    request, non-negative coin values whose total fits an [int64], raised
    targets that fit), the loop of [CoinSelect] terminates, whatever the fee
    rate, the dust limit and the candidates.  A pass restarts exactly when
    the overshoot of its selection over the requested amount is below the
    no-change fee; the working target then goes up, to the requested amount
    plus that fee.  The loop returns a selection or an error after at most as
    many restarts as there are candidates, and more passes than that do not
    change what it returns. *)
Theorem coinSelect_terminates {env : FeeEnv} feeRate amt dustLimit coins :
  targetsInRange feeRate amt coins ->
  (forall amtNeeded totalSat selected requiredFeeNoChange requiredFeeWithChange,
     selectInputs amtNeeded coins = OK (totalSat, selected) ->
     calculateFees selected feeRate =
       OK (requiredFeeNoChange, requiredFeeWithChange) ->
     totalSat - amt < requiredFeeNoChange ->
     CoinSelect_body feeRate amt dustLimit coins amtNeeded =
       Continue (amt + requiredFeeNoChange) /\
     amtNeeded < amt + requiredFeeNoChange) /\
  (forall amtNeeded amtNeeded',
     CoinSelect_body feeRate amt dustLimit coins amtNeeded =
       Continue amtNeeded' ->
     exists totalSat selected requiredFeeNoChange requiredFeeWithChange,
       selectInputs amtNeeded coins = OK (totalSat, selected) /\
       calculateFees selected feeRate =
         OK (requiredFeeNoChange, requiredFeeWithChange) /\
       totalSat - amt < requiredFeeNoChange /\
       amtNeeded' = amt + requiredFeeNoChange) /\
  exists r n,
    CoinSelect (S (length coins)) feeRate amt dustLimit coins = Some r /\
    restarts (S (length coins)) feeRate amt dustLimit coins amt = Some n /\
    (n <= length coins)%nat /\
    forall fuel, (length coins < fuel)%nat ->
      CoinSelect fuel feeRate amt dustLimit coins = Some r.
Proof.
  intros HR. split; [|split].
  - intros amtNeeded totalSat selected fnc fwc Hsel Hfees Hlt.
    split; [eapply body_restarts; eassumption|].
    destruct (selectInputs_exact _ _ _ _ (target_values_range _ _ _ HR) Hsel)
      as (k & _ & _ & _ & _ & Hge & _). lia.
  - intros amtNeeded amtNeeded' Hbody.
    destruct (body_Continue_exact _ _ _ _ _ _ HR Hbody)
      as (k & fnc & fwc & _ & Hsel & Hfees & _ & _ & Hlt & ->).
    exists (sumValues (firstn k coins)), (firstn k coins), fnc, fwc. auto.
  - destruct (loop_terminates feeRate amt dustLimit coins HR
                (length coins) 0%nat amt)
      as (r & n & Hloop & Hn & Hle).
    + lia.
    + intros j Hj. lia.
    + exists r, n. repeat split; try assumption.
      intros fuel Hfuel. unfold CoinSelect.
      eapply loop_more_fuel; [|exact Hloop]. lia.
Qed.

(** The request of 99900 on Scenario A is within range. *)
Lemma restart_inRange :
  inRange (env := Lnd.env) Lnd.rateA Lnd.amtRestart 500 Lnd.scenarioA.
Proof. solve_inRange. Defined.

Lemma coinSelect_terminates_witness :
  targetsInRange (env := Lnd.env) Lnd.rateA Lnd.amtRestart Lnd.scenarioA /\
  exists r n,
    CoinSelect (env := Lnd.env) 3 Lnd.rateA Lnd.amtRestart 500 Lnd.scenarioA =
      Some r /\
    restarts (env := Lnd.env) 3 Lnd.rateA Lnd.amtRestart 500 Lnd.scenarioA
      Lnd.amtRestart = Some n /\
    (n <= 2)%nat /\
    forall fuel, (2 < fuel)%nat ->
      CoinSelect (env := Lnd.env) fuel Lnd.rateA Lnd.amtRestart 500
        Lnd.scenarioA = Some r.
Proof.
  split; [exact (inRange_targets _ _ _ _ restart_inRange)|].
  exact (proj2 (proj2 (coinSelect_terminates Lnd.rateA Lnd.amtRestart 500
                         Lnd.scenarioA
                         (inRange_targets _ _ _ _ restart_inRange)))).
Defined.

(** The second restart does not add the no-change fee to the working
    target: from the target 101181, with a no-change fee of 2000 for the two
    coins selected, the loop goes on with 99900 + 2000 = 101900, and returns
    all three coins, whose total of 102900 is below 101181 + 2000. *)
Lemma restart_is_from_requested_amount :
  targetsInRange (env := Lnd.env) Lnd.rateA Lnd.amtRestart Lnd.threeCoins /\
  CoinSelect_body (env := Lnd.env) Lnd.rateA Lnd.amtRestart 500 Lnd.threeCoins
    Lnd.amtRestart = Continue 101181 /\
  selectInputs 101181 Lnd.threeCoins =
    OK (101500, firstn 2 Lnd.threeCoins) /\
  calculateFees (env := Lnd.env) (firstn 2 Lnd.threeCoins) Lnd.rateA =
    OK (2000, 2326) /\
  CoinSelect_body (env := Lnd.env) Lnd.rateA Lnd.amtRestart 500 Lnd.threeCoins
    101181 = Continue 101900 /\
  101900 <> 101181 + 2000 /\
  CoinSelect (env := Lnd.env) 3 Lnd.rateA Lnd.amtRestart 500 Lnd.threeCoins =
    Some (OK (Lnd.threeCoins, 0)) /\
  sumValues Lnd.threeCoins < 101181 + 2000.
Proof.
  split.
  - split.
    + decide_bounds.
    + split; [repeat constructor; decide_bounds|decide_bounds].
    + intros k fnc fwc Hk H. each_prefix k Hk H.
  - vm_compute. repeat split; intros H; discriminate H.
Qed.

(** Outside the range the loop need not return: for a request ten below
    [2^63] and a coin that covers it but not its fee, the raised target
    wraps around to a negative amount, the same coin is selected again, and
    every pass restarts. *)
Example loop_repeats_on_overflow :
  forall fuel,
    CoinSelect (env := Lnd.env) fuel Lnd.minRelayRate Lnd.hugeAmt 500
      Lnd.hugeCoin = None.
Proof.
  assert (forall fuel,
            CoinSelect_loop (env := Lnd.env) fuel Lnd.minRelayRate Lnd.hugeAmt
              500 Lnd.hugeCoin (-9223372036854775695) = None) as Hloop.
  { induction fuel as [|fuel IH]; [reflexivity|].
    cbn [CoinSelect_loop].
    replace (CoinSelect_body Lnd.minRelayRate Lnd.hugeAmt 500 Lnd.hugeCoin
               (-9223372036854775695))
      with (Continue (A := result (list Coin * Z)) (-9223372036854775695))
      by (vm_compute; reflexivity).
    exact IH. }
  intros [|fuel]; [reflexivity|].
  unfold CoinSelect. cbn [CoinSelect_loop].
  replace (CoinSelect_body Lnd.minRelayRate Lnd.hugeAmt 500 Lnd.hugeCoin
             Lnd.hugeAmt)
    with (Continue (A := result (list Coin * Z)) (-9223372036854775695))
    by (vm_compute; reflexivity).
  apply Hloop.
Qed.

(** The request of 99900 on Scenario A restarts once: the first coin covers
    the amount but not the fee of 1281, and both coins cover 99900 + 1281. *)
Example restart_once :
  CoinSelect (env := Lnd.env) 2 Lnd.rateA Lnd.amtRestart 500 Lnd.scenarioA =
    Some (OK (Lnd.scenarioA, 47774)) /\
  restarts (env := Lnd.env) 2 Lnd.rateA Lnd.amtRestart 500 Lnd.scenarioA
    Lnd.amtRestart = Some 1%nat /\
  finalTarget (env := Lnd.env) 2 Lnd.rateA Lnd.amtRestart 500 Lnd.scenarioA
    Lnd.amtRestart = Some 101181.
Proof. vm_compute. repeat split. Qed.

(** ** The selection is a prefix *)

(** C8. [CoinSelect] does not reorder the candidates.  With coin values
    within range (non-negative, with a total that fits an [int64]), the coins
    a successful call returns are a non-empty prefix of the candidates in
    their given order: the shortest one whose total value reaches the
    working target of the last pass, no shorter non-empty prefix reaching
    it, and no shorter prefix at all when that target is positive.  When all
    the amounts are within range that target is at least the requested
    amount. *)
Theorem selection_is_shortest_prefix {env : FeeEnv} feeRate amt dustLimit
    coins fuel selected changeAmt :
  valuesInRange coins ->
  CoinSelect fuel feeRate amt dustLimit coins =
    Some (OK (selected, changeAmt)) ->
  exists target k,
    finalTarget fuel feeRate amt dustLimit coins amt = Some target /\
    (0 < k <= length coins)%nat /\
    selected = firstn k coins /\
    target <= sumValues selected /\
    (forall j, (0 < j < k)%nat -> sumValues (firstn j coins) < target) /\
    (0 < target ->
     forall j, (j < k)%nat -> sumValues (firstn j coins) < target) /\
    (inRange feeRate amt dustLimit coins -> amt <= target).
Proof.
  intros Hvals H.
  destruct (loop_final _ _ _ _ _ _ _ H) as (target & Hfinal & Hbody).
  destruct (body_OK_inv _ _ _ _ _ _ _ Hbody)
    as (totalSat & fnc & fwc & Hsel & _).
  destruct (selectInputs_exact _ _ _ _ Hvals Hsel)
    as (k & Hk & Hpre & -> & _ & Hge & Hshort).
  exists target, k. repeat split; try assumption; try lia.
  - intros Hpos j Hj. destruct j as [|j].
    + simpl. lia.
    + apply Hshort. lia.
  - intros HR.
    exact (finalTarget_ge _ _ _ _ HR fuel amt target (Z.le_refl amt) Hfinal).
Qed.

Lemma selection_is_shortest_prefix_witness :
  valuesInRange Lnd.scenarioA /\
  exists target k,
    finalTarget (env := Lnd.env) 2 Lnd.rateA Lnd.amtRestart 500 Lnd.scenarioA
      Lnd.amtRestart = Some target /\
    (0 < k <= 2)%nat /\
    Lnd.scenarioA = firstn k Lnd.scenarioA /\
    target <= sumValues Lnd.scenarioA /\
    (forall j, (0 < j < k)%nat ->
       sumValues (firstn j Lnd.scenarioA) < target) /\
    (0 < target ->
     forall j, (j < k)%nat -> sumValues (firstn j Lnd.scenarioA) < target) /\
    (inRange (env := Lnd.env) Lnd.rateA Lnd.amtRestart 500 Lnd.scenarioA ->
     Lnd.amtRestart <= target).
Proof.
  split; [exact (values_range _ _ _ _ restart_inRange)|].
  apply (selection_is_shortest_prefix Lnd.rateA Lnd.amtRestart 500
           Lnd.scenarioA 2%nat Lnd.scenarioA 47774
           (values_range _ _ _ _ restart_inRange)).
  vm_compute. reflexivity.
Defined.

(** ** The lease manager *)

Lemma holder_Some now o m id :
  holder now o m = Some id <-> exists e, m !! o = Some (id, e) /\ now < e.
Proof.
  unfold holder. split.
  - destruct (m !! o) as [[id' e]|]; [|discriminate].
    destruct (now <? e) eqn:Hlive; [|discriminate].
    intros [= ->]. exists e. split; [reflexivity|lia].
  - intros (e & -> & Hlive). apply Z.ltb_lt in Hlive. rewrite Hlive.
    reflexivity.
Qed.

#[global] Instance leaseOfEntry_inj : Inj (=) (=) leaseOfEntry.
Proof. intros [o [id e]] [o' [id' e']] [= -> -> ->]. reflexivity. Qed.

(** The leases listed at [now] are the entries of the table that have not
    expired at [now]. *)
Lemma elem_of_ListLeases now (m : LeaseTable) l :
  l ∈ ListLeases now m <->
  m !! outpoint l = Some (leaseID l, expiresAt l) /\ now < expiresAt l.
Proof.
  unfold ListLeases. rewrite list_elem_of_fmap. split.
  - intros ([o [id e]] & -> & Hin).
    apply elem_of_map_to_list, map_lookup_filter_Some in Hin. exact Hin.
  - intros [Hm Hlive]. exists (outpoint l, (leaseID l, expiresAt l)).
    split; [destruct l; reflexivity|].
    apply elem_of_map_to_list, map_lookup_filter_Some. split; assumption.
Qed.

Lemma NoDup_ListLeases now (m : LeaseTable) : NoDup (ListLeases now m).
Proof. apply (NoDup_fmap_2 _), NoDup_map_to_list. Qed.

(** A successful [Lock] records the lease with its new expiry. *)
Lemma Lock_success now id o ttl (m : LeaseTable) e :
  fst (Lock now id o ttl m) = inr e ->
  e = now + ttl /\ snd (Lock now id o ttl m) = <[o := (id, now + ttl)]> m.
Proof.
  unfold Lock. destruct (holder now o m) as [h|].
  - destruct (decide (h = id)); simpl; [|discriminate].
    intros [= <-]. split; reflexivity.
  - simpl. intros [= <-]. split; reflexivity.
Qed.

(** A lease that is live at the time of a call made under another
    identifier, or of a sweep, is still in the table after the call. *)
Lemma serve_keeps_lease (m : LeaseTable) c o id e :
  m !! o = Some (id, e) ->
  callTime c < e ->
  callBy c <> Some id ->
  serve m c !! o = Some (id, e).
Proof.
  intros Hm Htime Hby. destruct c as [now id' o' ttl|now id' o'|now]; simpl in *.
  - unfold Lock. destruct (decide (o' = o)) as [->|Hne].
    + assert (holder now o m = Some id) as ->
        by (apply holder_Some; exists e; auto).
      destruct (decide (id = id')) as [->|]; [congruence|]. exact Hm.
    + destruct (holder now o' m) as [h|];
        [destruct (decide (h = id'))|]; simpl;
        rewrite ?lookup_insert_ne by assumption; exact Hm.
  - unfold Release. destruct (decide (o' = o)) as [->|Hne].
    + assert (holder now o m = Some id) as ->
        by (apply holder_Some; exists e; auto).
      destruct (decide (id = id')) as [->|]; [congruence|]. exact Hm.
    + destruct (holder now o' m) as [h|];
        [destruct (decide (h = id'))|]; simpl;
        rewrite ?lookup_delete_ne by assumption; exact Hm.
  - unfold Sweep. apply map_lookup_filter_Some. split; assumption.
Qed.

Lemma serveAll_keeps_lease calls :
  forall (m : LeaseTable) o id e,
    m !! o = Some (id, e) ->
    Forall (fun c => callTime c < e /\ callBy c <> Some id) calls ->
    serveAll m calls !! o = Some (id, e).
Proof.
  unfold serveAll.
  induction calls as [|c calls IH]; intros m o id e Hm Hcalls; simpl.
  - exact Hm.
  - inversion Hcalls as [|? ? [Htime Hby] Hrest]; subst.
    apply IH; [|assumption]. apply serve_keeps_lease; assumption.
Qed.

(** C2. In every table of the lease manager and at every time, at most one
    live lease is listed for an outpoint; a [Lock] under an identifier other
    than that of the holder of a live lease fails with [LeaseConflict] and
    leaves the table as it is; and a lease that has been granted stays the
    one live lease on its outpoint until it expires, whatever calls other
    identifiers make in the meantime, each [Lock] of theirs on the outpoint
    failing.  So two identifiers never hold a live lease on one outpoint at
    the same time. *)
Theorem lease_mutual_exclusion (m : LeaseTable) (now : Z) :
  (forall l1 l2,
     l1 ∈ ListLeases now m -> l2 ∈ ListLeases now m ->
     outpoint l1 = outpoint l2 -> l1 = l2) /\
  (forall l id ttl,
     l ∈ ListLeases now m -> id <> leaseID l ->
     Lock now id (outpoint l) ttl m =
       (inl (LeaseConflict (outpoint l) (leaseID l)), m)) /\
  (forall id o ttl e calls t other ttl',
     fst (Lock now id o ttl m) = inr e ->
     Forall (fun c => callTime c < e /\ callBy c <> Some id) calls ->
     t < e -> other <> id ->
     let m' := serveAll (snd (Lock now id o ttl m)) calls in
     mkLease id o e ∈ ListLeases t m' /\
     (forall l, l ∈ ListLeases t m' -> outpoint l = o -> leaseID l = id) /\
     Lock t other o ttl' m' = (inl (LeaseConflict o id), m')).
Proof.
  split; [|split].
  - intros l1 l2 H1 H2 Ho.
    apply elem_of_ListLeases in H1 as [H1 _].
    apply elem_of_ListLeases in H2 as [H2 _].
    rewrite Ho in H1. rewrite H1 in H2.
    destruct l1, l2; simpl in *. congruence.
  - intros l id ttl Hl Hid.
    apply elem_of_ListLeases in Hl as [Hm Hlive].
    unfold Lock.
    assert (holder now (outpoint l) m = Some (leaseID l)) as ->
      by (apply holder_Some; eauto).
    destruct (decide (leaseID l = id)); [congruence|reflexivity].
  - intros id o ttl e calls t other ttl' Hok Hcalls Ht Hother m'.
    destruct (Lock_success _ _ _ _ _ _ Hok) as [-> Hsnd].
    assert (m' !! o = Some (id, now + ttl)) as Hm'.
    { apply serveAll_keeps_lease; [|assumption].
      rewrite Hsnd. apply lookup_insert_eq. }
    split; [|split].
    + apply elem_of_ListLeases. simpl. split; assumption.
    + intros l Hl Ho. apply elem_of_ListLeases in Hl as [Hl _].
      rewrite Ho in Hl. congruence.
    + unfold Lock.
      assert (holder t o m' = Some id) as ->
        by (apply holder_Some; eauto).
      destruct (decide (id = other)); [congruence|reflexivity].
Qed.

(** Scenario C of the specification: [A] locks an outpoint for 60 seconds at
    time 0, and [B] is refused at time 30. *)
Lemma lease_mutual_exclusion_witness :
  mkLease leaseA outpointO 60 ∈
    ListLeases 30 (snd (Lock 0 leaseA outpointO 60 ∅)) /\
  Lock 30 leaseB outpointO 60 (snd (Lock 0 leaseA outpointO 60 ∅)) =
    (inl (LeaseConflict outpointO leaseA),
     snd (Lock 0 leaseA outpointO 60 ∅)).
Proof.
  destruct (proj2 (proj2 (lease_mutual_exclusion ∅ 0)) leaseA outpointO
              60 60 [] 30 leaseB 60) as (Hin & _ & Hlock).
  - reflexivity.
  - constructor.
  - lia.
  - discriminate.
  - split; [exact Hin|exact Hlock].
Defined.

(** Once [A]'s lease has expired, [B]'s lock succeeds. *)
Example lock_after_expiry :
  fst (Lock 61 leaseB outpointO 60 (snd (Lock 0 leaseA outpointO 60 ∅))) =
    inr 121.
Proof. reflexivity. Qed.

(** ** Locking twice *)

(** C9. After a successful [Lock], a second [Lock] under the same
    identifier, on the same outpoint and with the same [ttl] succeeds and
    extends the lease instead of adding one: at any time before the new
    expiry the outpoint has exactly one listed lease, which carries the
    expiry of the second call, and at any time at which the first lease
    would still be live [ListLeases] has as many leases as after the first
    call. *)
Theorem lock_twice_extends (m : LeaseTable) now1 now2 t id o ttl :
  fst (Lock now1 id o ttl m) = inr (now1 + ttl) ->
  let m1 := snd (Lock now1 id o ttl m) in
  let m2 := snd (Lock now2 id o ttl m1) in
  fst (Lock now2 id o ttl m1) = inr (now2 + ttl) /\
  (t < now2 + ttl ->
   mkLease id o (now2 + ttl) ∈ ListLeases t m2 /\
   (forall l, l ∈ ListLeases t m2 -> outpoint l = o ->
              l = mkLease id o (now2 + ttl)) /\
   NoDup (ListLeases t m2)) /\
  (t < now1 + ttl -> t < now2 + ttl ->
   length (ListLeases t m2) = length (ListLeases t m1)).
Proof.
  intros Hok m1 m2.
  destruct (Lock_success _ _ _ _ _ _ Hok) as [_ Hm1].
  assert (m1 !! o = Some (id, now1 + ttl)) as Hlook1
    by (subst m1; rewrite Hm1; apply lookup_insert_eq).
  assert (Lock now2 id o ttl m1 =
          (inr (now2 + ttl), <[o := (id, now2 + ttl)]> m1)) as Hlock2.
  { unfold Lock, holder. rewrite Hlook1.
    destruct (now2 <? now1 + ttl); [|reflexivity].
    destruct (decide (id = id)); [reflexivity|congruence]. }
  assert (m2 = <[o := (id, now2 + ttl)]> m) as Hm2.
  { subst m2. rewrite Hlock2. simpl. subst m1. rewrite Hm1.
    apply insert_insert_eq. }
  split; [rewrite Hlock2; reflexivity|]. split.
  - intros Hlive. split; [|split].
    + apply elem_of_ListLeases. simpl. rewrite Hm2.
      split; [apply lookup_insert_eq|lia].
    + intros l Hl Ho. apply elem_of_ListLeases in Hl as [Hl _].
      rewrite Ho, Hm2, lookup_insert_eq in Hl.
      destruct l; simpl in *. congruence.
    + apply NoDup_ListLeases.
  - intros Hlive1 Hlive2.
    unfold ListLeases. rewrite !length_fmap, !length_map_to_list.
    rewrite Hm2. subst m1. rewrite Hm1.
    rewrite !map_filter_insert_True by (unfold liveAt; simpl; lia).
    rewrite !map_size_insert. reflexivity.
Qed.

Lemma lock_twice_extends_witness :
  fst (Lock 10 leaseA outpointO 60 (snd (Lock 0 leaseA outpointO 60 ∅))) =
    inr 70 /\
  length (ListLeases 30
            (snd (Lock 10 leaseA outpointO 60
                    (snd (Lock 0 leaseA outpointO 60 ∅))))) =
  length (ListLeases 30 (snd (Lock 0 leaseA outpointO 60 ∅))).
Proof.
  destruct (lock_twice_extends ∅ 0 10 30 leaseA outpointO 60)
    as (Hok & _ & Hlen).
  - reflexivity.
  - split; [exact Hok|]. apply Hlen; lia.
Defined.

(** * Further properties of coin selection *)

(** ** selectInputs *)

(** X1. With coin values within range, [selectInputs] succeeds exactly when
    there is a candidate and the candidates total at least the amount; it
    fails on an empty list whatever the amount. *)
Theorem selectInputs_succeeds_iff amt coins :
  valuesInRange coins ->
  ((exists total selected, selectInputs amt coins = OK (total, selected)) <->
   coins <> [] /\ amt <= sumValues coins).
Proof.
  intros Hvals. split.
  - intros (total & selected & H).
    destruct (selectInputs_OK _ _ _ _ H) as (k & Hk & _ & -> & Hge & _).
    rewrite prefixTotal_exact in Hge by assumption.
    pose proof (sumValues_firstn_total coins k (proj1 Hvals)).
    split; [|lia]. intros ->. simpl in Hk. lia.
  - intros [Hne Hge].
    destruct (selectInputs amt coins) as [[total selected]|e] eqn:H.
    + eauto.
    + destruct (selectInputs_Err _ _ _ H) as [_ Hlt].
      assert (0 < length coins)%nat as Hlen
        by (destruct coins; [congruence|simpl; lia]).
      specialize (Hlt (length coins) ltac:(lia)).
      rewrite prefixTotal_exact, firstn_all in Hlt by assumption. lia.
Qed.

Lemma selectInputs_succeeds_iff_witness :
  exists total selected,
    selectInputs 120000 Lnd.scenarioA = OK (total, selected).
Proof.
  apply (proj2 (selectInputs_succeeds_iff 120000 Lnd.scenarioA
                  (values_range _ _ _ _ scenarioA_inRange))).
  split; [discriminate|vm_compute; discriminate].
Defined.

(** X2. With coin values within range, [selectInputs] is monotone in the
    amount: when it succeeds for an amount it succeeds for every smaller
    one, with a selection that is a prefix of the first and a total that is
    no larger. *)
Theorem selectInputs_monotone amt1 amt2 coins total2 selected2 :
  valuesInRange coins ->
  amt1 <= amt2 ->
  selectInputs amt2 coins = OK (total2, selected2) ->
  exists total1 selected1 k,
    selectInputs amt1 coins = OK (total1, selected1) /\
    (0 < k <= length selected2)%nat /\
    selected1 = firstn k selected2 /\
    total1 <= total2.
Proof.
  intros Hvals Hle H2.
  destruct (selectInputs_exact _ _ _ _ Hvals H2)
    as (k2 & Hk2 & Hsel2 & Htot2 & _ & Hge2 & _).
  destruct (selectInputs amt1 coins) as [[total1 selected1]|e] eqn:H1.
  - destruct (selectInputs_exact _ _ _ _ Hvals H1)
      as (k1 & Hk1 & Hsel1 & Htot1 & _ & Hge1 & Hshort1).
    assert (k1 <= k2)%nat as Hk.
    { destruct (decide (k1 <= k2)%nat) as [|Hgt]; [assumption|].
      specialize (Hshort1 k2 ltac:(lia)). rewrite <- Hsel2 in Hshort1. lia. }
    exists total1, selected1, k1. split; [reflexivity|].
    assert (length selected2 = k2) as Hlen
      by (rewrite Hsel2, length_firstn; lia).
    split; [lia|]. split.
    + rewrite Hsel1, Hsel2, firstn_firstn, Nat.min_l by lia. reflexivity.
    + rewrite Htot1, Htot2, Hsel1, Hsel2.
      apply sumValues_firstn_mono; [apply Hvals|assumption].
  - destruct (selectInputs_Err _ _ _ H1) as [_ Hlt].
    specialize (Hlt k2 ltac:(lia)).
    rewrite prefixTotal_exact, <- Hsel2 in Hlt by assumption. lia.
Qed.

Lemma selectInputs_monotone_witness :
  exists total1 selected1 k,
    selectInputs 99900 Lnd.scenarioA = OK (total1, selected1) /\
    (0 < k <= length Lnd.scenarioA)%nat /\
    selected1 = firstn k Lnd.scenarioA /\
    total1 <= 150000.
Proof.
  apply (selectInputs_monotone 99900 120000 Lnd.scenarioA 150000
           Lnd.scenarioA (values_range _ _ _ _ scenarioA_inRange)).
  - lia.
  - reflexivity.
Defined.

(** A selection made among some candidates is made among more of them. *)
Lemma selectInputs_loop_app amt coins extra rest :
  forall i satSelected r,
    (i + length rest <= length coins)%nat ->
    selectInputs_loop amt coins rest i satSelected = OK r ->
    selectInputs_loop amt (coins ++ extra) (rest ++ extra) i satSelected = OK r.
Proof.
  induction rest as [|c rest IH]; intros i sat r Hlen H; simpl in *.
  - discriminate.
  - destruct (_ >=? amt).
    + rewrite <- H. f_equal. f_equal.
      destruct coins as [|c0 coins]; [simpl in Hlen; lia|].
      simpl. f_equal. apply take_app_le. simpl in Hlen. lia.
    + apply IH; [lia|assumption].
Qed.

Lemma selectInputs_app amt coins extra r :
  selectInputs amt coins = OK r ->
  selectInputs amt (coins ++ extra) = OK r.
Proof.
  unfold selectInputs. intros H.
  apply selectInputs_loop_app; [simpl; lia|assumption].
Qed.

(** ** calculateFees *)

Section CalculateFees.

Context {env : FeeEnv}.

Lemma addInputs_spec utxos :
  forall w,
    match addInputs utxos w with
    | OK _ => Forall (fun c => supportedScript c = true) utxos
    | Err e =>
        exists pre u post,
          utxos = pre ++ u :: post /\
          Forall (fun c => supportedScript c = true) pre /\
          supportedScript u = false /\
          e = errUnsupportedInput (PkScript (coinTxOut u))
    end.
Proof.
  induction utxos as [|u utxos IH]; intros w; simpl.
  - constructor.
  - destruct (IsPayToWitnessPubKeyHash _) eqn:Hw;
      [|destruct (IsPayToScriptHash _) eqn:Hs].
    + specialize (IH (AddP2WKHInput w)).
      destruct (addInputs utxos _).
      * constructor; [unfold supportedScript; rewrite Hw; reflexivity|exact IH].
      * destruct IH as (pre & u' & post & -> & Hpre & Hu & ->).
        exists (u :: pre), u', post. repeat split; try assumption.
        constructor; [unfold supportedScript; rewrite Hw; reflexivity|exact Hpre].
    + specialize (IH (AddNestedP2WKHInput w)).
      destruct (addInputs utxos _).
      * constructor;
          [unfold supportedScript; rewrite Hw, Hs; reflexivity|exact IH].
      * destruct IH as (pre & u' & post & -> & Hpre & Hu & ->).
        exists (u :: pre), u', post. repeat split; try assumption.
        constructor;
          [unfold supportedScript; rewrite Hw, Hs; reflexivity|exact Hpre].
    + exists [], u, utxos. repeat split.
      * constructor.
      * unfold supportedScript. rewrite Hw, Hs. reflexivity.
Qed.

Lemma addInputs_scripts utxos utxos' :
  map (fun c => PkScript (coinTxOut c)) utxos =
  map (fun c => PkScript (coinTxOut c)) utxos' ->
  forall w, addInputs utxos w = addInputs utxos' w.
Proof.
  revert utxos'. induction utxos as [|u utxos IH];
    intros [|u' utxos'] Heq w; simpl in *; try discriminate.
  - reflexivity.
  - injection Heq as Hu Hrest. rewrite Hu.
    destruct (IsPayToWitnessPubKeyHash _); [apply IH, Hrest|].
    destruct (IsPayToScriptHash _); [apply IH, Hrest|reflexivity].
Qed.

(** A failure of [calculateFees] is the failure of its loop over the
    inputs. *)
Lemma calculateFees_Err_inv utxos feeRate e :
  calculateFees utxos feeRate = Err e ->
  exists pre u post,
    utxos = pre ++ u :: post /\
    Forall (fun c => supportedScript c = true) pre /\
    supportedScript u = false /\
    e = errUnsupportedInput (PkScript (coinTxOut u)).
Proof.
  unfold calculateFees. pose proof (addInputs_spec utxos newEstimator) as Hspec.
  destruct (addInputs utxos newEstimator) as [w|e0]; [discriminate|].
  intros [= <-]. exact Hspec.
Qed.

End CalculateFees.

(** X3. [calculateFees] returns fees exactly when every script is a
    pay-to-witness-key-hash or a pay-to-script-hash one.  Otherwise it fails
    with [errUnsupportedInput] for the first script, in the order of the
    coins, that is neither, whatever the fee rate. *)
Theorem calculateFees_unsupported {env : FeeEnv} utxos feeRate :
  ((exists fees, calculateFees utxos feeRate = OK fees) <->
   Forall (fun c => supportedScript c = true) utxos) /\
  (forall e,
     calculateFees utxos feeRate = Err e <->
     exists pre u post,
       utxos = pre ++ u :: post /\
       Forall (fun c => supportedScript c = true) pre /\
       supportedScript u = false /\
       e = errUnsupportedInput (PkScript (coinTxOut u))).
Proof.
  unfold calculateFees.
  pose proof (addInputs_spec utxos newEstimator) as Hspec.
  destruct (addInputs utxos newEstimator) as [w|e0].
  - split.
    + split; [intros _; exact Hspec|eauto].
    + intros e. split; [discriminate|].
      intros (pre & u & post & -> & _ & Hu & _).
      apply Forall_app in Hspec as [_ Hspec].
      inversion Hspec; subst. congruence.
  - destruct Hspec as (pre & u & post & Hcut & Hpre & Hu & ->). split.
    + split.
      * intros [fees H]. discriminate.
      * intros Hall. rewrite Hcut in Hall.
        apply Forall_app in Hall as [_ Hall]. inversion Hall; subst. congruence.
    + intros e. split.
      * intros [= <-]. exists pre, u, post. auto.
      * intros (pre' & u' & post' & Hcut' & Hpre' & Hu' & ->).
        f_equal. f_equal. rewrite Hcut in Hcut'.
        assert (length pre = length pre') as Hlen.
        { destruct (Nat.lt_trichotomy (length pre) (length pre'))
            as [Hlt|[Heq|Hgt]]; [|assumption|]; exfalso.
          - assert (pre' !! length pre = Some u) as Hin.
            { apply (f_equal (fun l => l !! length pre)) in Hcut'.
              rewrite lookup_app_r, Nat.sub_diag in Hcut' by lia.
              rewrite lookup_app_l in Hcut' by lia. simpl in Hcut'. congruence. }
            rewrite Forall_forall in Hpre'.
            apply list_elem_of_lookup_2, Hpre' in Hin.
            congruence.
          - assert (pre !! length pre' = Some u') as Hin.
            { apply (f_equal (fun l => l !! length pre')) in Hcut'.
              rewrite lookup_app_l in Hcut' by lia.
              rewrite lookup_app_r, Nat.sub_diag in Hcut' by lia.
              simpl in Hcut'. congruence. }
            rewrite Forall_forall in Hpre.
            apply list_elem_of_lookup_2, Hpre in Hin.
            congruence. }
        apply app_inj_1 in Hcut' as [_ Hcut']; [|assumption].
        congruence.
Qed.

(** X4. The two fees depend on the coins through their scripts alone: coins
    with the same scripts in the same order get the same fees, or the same
    error, whatever their values and outpoints. *)
Theorem calculateFees_scripts_only {env : FeeEnv} utxos utxos' feeRate :
  map (fun c => PkScript (coinTxOut c)) utxos =
  map (fun c => PkScript (coinTxOut c)) utxos' ->
  calculateFees utxos feeRate = calculateFees utxos' feeRate.
Proof.
  intros Heq. unfold calculateFees.
  rewrite (addInputs_scripts utxos utxos' Heq). reflexivity.
Qed.

Lemma calculateFees_scripts_only_witness :
  calculateFees (env := Lnd.env) Lnd.scenarioA Lnd.rateA =
  calculateFees (env := Lnd.env) [Lnd.coin 1 5; Lnd.coin 2 6] Lnd.rateA.
Proof.
  apply (calculateFees_scripts_only Lnd.scenarioA
           [Lnd.coin 1 5; Lnd.coin 2 6] Lnd.rateA).
  reflexivity.
Defined.

(** ** CoinSelect and the candidates it does not reach *)

Section MoreCandidates.

Context {env : FeeEnv}.

Lemma body_Continue_app feeRate amt dustLimit coins extra amtNeeded amtNeeded' :
  CoinSelect_body feeRate amt dustLimit coins amtNeeded = Continue amtNeeded' ->
  CoinSelect_body feeRate amt dustLimit (coins ++ extra) amtNeeded =
    Continue amtNeeded'.
Proof.
  intros H.
  destruct (body_Continue_inv _ _ _ _ _ _ H)
    as (totalSat & sel & fnc & fwc & Hsel & Hfees & Hlt & ->).
  unfold CoinSelect_body.
  rewrite (selectInputs_app _ _ extra _ Hsel), Hfees.
  apply Z.ltb_lt in Hlt. rewrite Hlt. reflexivity.
Qed.

Lemma body_OK_app feeRate amt dustLimit coins extra amtNeeded r :
  CoinSelect_body feeRate amt dustLimit coins amtNeeded = Return (OK r) ->
  CoinSelect_body feeRate amt dustLimit (coins ++ extra) amtNeeded =
    Return (OK r).
Proof.
  destruct r as [selected changeAmt]. intros H.
  destruct (body_OK_inv _ _ _ _ _ _ _ H)
    as (totalSat & fnc & fwc & Hsel & Hfees & _).
  unfold CoinSelect_body in *.
  rewrite (selectInputs_app _ _ extra _ Hsel). rewrite Hsel in H.
  exact H.
Qed.

Lemma loop_OK_app fuel feeRate amt dustLimit coins extra :
  forall amtNeeded r,
    CoinSelect_loop fuel feeRate amt dustLimit coins amtNeeded = Some (OK r) ->
    CoinSelect_loop fuel feeRate amt dustLimit (coins ++ extra) amtNeeded =
      Some (OK r).
Proof.
  induction fuel as [|fuel IH]; intros amtNeeded r H; simpl in *.
  - discriminate.
  - destruct (CoinSelect_body feeRate amt dustLimit coins amtNeeded)
      as [next|r0] eqn:Hbody.
    + rewrite (body_Continue_app _ _ _ _ extra _ _ Hbody). apply IH, H.
    + injection H as ->. rewrite (body_OK_app _ _ _ _ extra _ _ Hbody).
      reflexivity.
Qed.

End MoreCandidates.

(** X5. A selection does not depend on the candidates behind the ones it
    takes: when [CoinSelect], or [CoinSelectSubtractFees], returns a
    selection for some candidates, it returns the same selection and the same
    amounts with any further candidates appended. *)
Theorem selection_ignores_later_candidates {env : FeeEnv} feeRate amt
    dustLimit coins extra :
  (forall fuel r,
     CoinSelect fuel feeRate amt dustLimit coins = Some (OK r) ->
     CoinSelect fuel feeRate amt dustLimit (coins ++ extra) = Some (OK r)) /\
  (forall r,
     CoinSelectSubtractFees feeRate amt dustLimit coins = OK r ->
     CoinSelectSubtractFees feeRate amt dustLimit (coins ++ extra) = OK r).
Proof.
  split.
  - intros fuel r. apply loop_OK_app.
  - intros [[selected outputAmt] changeAmt] H.
    destruct (subtractFees_OK_inv _ _ _ _ _ _ _ H)
      as (totalSat & fnc & fwc & Hsel & _).
    unfold CoinSelectSubtractFees in *.
    rewrite (selectInputs_app _ _ extra _ Hsel). rewrite Hsel in H. exact H.
Qed.

Lemma selection_ignores_later_candidates_witness :
  CoinSelect (env := Lnd.env) 1 Lnd.rateA 120000 500
    (Lnd.scenarioA ++ Lnd.smallCoin) = Some (OK (Lnd.scenarioA, 27674)).
Proof.
  apply (proj1 (selection_ignores_later_candidates (env := Lnd.env) Lnd.rateA
                  120000 500 Lnd.scenarioA Lnd.smallCoin)).
  vm_compute. reflexivity.
Defined.

(** ** The errors of CoinSelect *)

(** X6. [CoinSelect] returns no other errors than these: insufficient
    funds, carrying the working target of the last pass and the accumulated
    total of all the candidates; an unsupported input, carrying the script of
    a candidate that fails both script tests; and the fee sanity error,
    carrying a fee above a fifth of the output total.  It never returns the
    below-dust error of [CoinSelectSubtractFees]. *)
Theorem coinSelect_errors {env : FeeEnv} fuel feeRate amt dustLimit coins e :
  CoinSelect fuel feeRate amt dustLimit coins = Some (Err e) ->
  match e with
  | ErrInsufficientFunds need have =>
      finalTarget fuel feeRate amt dustLimit coins amt = Some need /\
      have = accumulate coins 0
  | errUnsupportedInput script =>
      exists c, c ∈ coins /\ supportedScript c = false /\
                script = PkScript (coinTxOut c)
  | ErrFeeSanity fee totalOut => Z.quot totalOut 5 < fee
  | ErrBelowDust _ _ _ => False
  end.
Proof.
  intros H.
  destruct (loop_final _ _ _ _ _ _ _ H) as (target & Hfinal & Hbody).
  unfold CoinSelect_body in Hbody.
  destruct (selectInputs target coins) as [[totalSat selected]|e0] eqn:Hsel.
  - destruct (calculateFees selected feeRate) as [[fnc fwc]|e1] eqn:Hfees.
    + destruct (_ <? fnc); [discriminate|].
      unfold sanityCheckFee in Hbody.
      destruct (_ >? _) eqn:Hgt; [|discriminate].
      injection Hbody as <-. rewrite Z.gtb_ltb in Hgt. lia.
    + injection Hbody as <-.
      destruct (calculateFees_Err_inv _ _ _ Hfees)
        as (pre & u & post & Hcut & _ & Hu & ->).
      exists u. split; [|auto].
      destruct (selectInputs_OK _ _ _ _ Hsel) as (k & _ & Hpre & _).
      assert (u ∈ selected) as Hin by (rewrite Hcut; set_solver).
      rewrite Hpre in Hin.
      rewrite <- (firstn_skipn k coins). set_solver.
  - injection Hbody as <-.
    destruct (selectInputs_Err _ _ _ Hsel) as [-> _]. auto.
Qed.

Lemma coinSelect_errors_witness :
  finalTarget (env := Lnd.env) 1 Lnd.rateA 120000 500
    [Lnd.coin 20000 0; Lnd.coin 30000 1] 120000 = Some 120000 /\
  50000 = accumulate [Lnd.coin 20000 0; Lnd.coin 30000 1] 0.
Proof.
  apply (coinSelect_errors (env := Lnd.env) 1 Lnd.rateA 120000 500
           [Lnd.coin 20000 0; Lnd.coin 30000 1]
           (ErrInsufficientFunds 120000 50000)).
  vm_compute. reflexivity.
Defined.

(** ** The output of CoinSelectSubtractFees *)

(** X7. The output amount a successful [CoinSelectSubtractFees] returns is
    never below the dust limit, with or without change. *)
Theorem subtractFees_output_above_dust {env : FeeEnv} feeRate amt dustLimit
    coins selected outputAmt changeAmt :
  CoinSelectSubtractFees feeRate amt dustLimit coins =
    OK (selected, outputAmt, changeAmt) ->
  dustLimit <= outputAmt.
Proof.
  intros H.
  destruct (subtractFees_OK_inv _ _ _ _ _ _ _ H)
    as (totalSat & fnc & fwc & _ & _ & Hdust & Hout & _).
  destruct (_ && _) eqn:Hboth in Hout; injection Hout as -> ->.
  - apply andb_true_iff in Hboth. lia.
  - assumption.
Qed.

Lemma subtractFees_output_above_dust_witness : 500 <= 117674.
Proof.
  apply (subtractFees_output_above_dust (env := Lnd.env) Lnd.rateA 120000 500
           Lnd.scenarioA Lnd.scenarioA 117674 30000).
  vm_compute. reflexivity.
Defined.

(** ** The two modes on the same candidates *)

(** X8. Within range, [CoinSelectSubtractFees] never takes more coins than
    [CoinSelect] does for the same request: when both return a selection,
    the inputs of the first are a prefix of the inputs of the second. *)
Theorem subtractFees_selects_no_more {env : FeeEnv} feeRate amt dustLimit
    coins fuel selected changeAmt selected' outputAmt' changeAmt' :
  inRange feeRate amt dustLimit coins ->
  CoinSelect fuel feeRate amt dustLimit coins =
    Some (OK (selected, changeAmt)) ->
  CoinSelectSubtractFees feeRate amt dustLimit coins =
    OK (selected', outputAmt', changeAmt') ->
  exists k, (0 < k <= length selected)%nat /\ selected' = firstn k selected.
Proof.
  intros HR Hcs Hsf.
  pose proof (values_range _ _ _ _ HR) as Hvals.
  destruct (loop_final _ _ _ _ _ _ _ Hcs) as (target & Hfinal & Hbody).
  destruct (body_OK_inv _ _ _ _ _ _ _ Hbody) as (total & ? & ? & Hsel & _).
  destruct (subtractFees_OK_inv _ _ _ _ _ _ _ Hsf)
    as (total' & ? & ? & Hsel' & _).
  pose proof (finalTarget_ge _ _ _ _ HR fuel amt target (Z.le_refl amt) Hfinal)
    as Hge.
  destruct (selectInputs_exact _ _ _ _ Hvals Hsel)
    as (k & Hk & Hpre & Htot & _ & Hreach & _).
  destruct (selectInputs_exact _ _ _ _ Hvals Hsel')
    as (k' & Hk' & Hpre' & _ & _ & _ & Hshort').
  assert (k' <= k)%nat as Hle.
  { destruct (decide (k' <= k)%nat) as [|Hgt]; [assumption|].
    specialize (Hshort' k ltac:(lia)). rewrite <- Hpre in Hshort'. lia. }
  exists k'. split.
  - rewrite Hpre, length_firstn. lia.
  - rewrite Hpre', Hpre, firstn_firstn, Nat.min_l by lia. reflexivity.
Qed.

Lemma subtractFees_selects_no_more_witness :
  exists k, (0 < k <= length Lnd.scenarioA)%nat /\
            firstn 1 Lnd.scenarioA = firstn k Lnd.scenarioA.
Proof.
  apply (subtractFees_selects_no_more (env := Lnd.env) Lnd.rateA
           Lnd.amtRestart 500 Lnd.scenarioA 2%nat Lnd.scenarioA 47774
           (firstn 1 Lnd.scenarioA) 98719 0 restart_inRange).
  - vm_compute. reflexivity.
  - vm_compute. reflexivity.
Defined.

(** ** What a restart selects *)

(** X9. With amounts within range, a pass of [CoinSelect] that follows a
    restart never settles for the inputs of the pass before it: it selects
    strictly more of the candidates, or finds the funds insufficient. *)
Theorem restart_selects_more {env : FeeEnv} feeRate amt dustLimit coins
    amtNeeded amtNeeded' total selected :
  targetsInRange feeRate amt coins ->
  CoinSelect_body feeRate amt dustLimit coins amtNeeded = Continue amtNeeded' ->
  selectInputs amtNeeded coins = OK (total, selected) ->
  match selectInputs amtNeeded' coins with
  | OK (total', selected') =>
      (length selected < length selected')%nat /\
      selected = firstn (length selected) selected' /\
      total < total'
  | Err e => e = ErrInsufficientFunds amtNeeded' (sumValues coins)
  end.
Proof.
  intros HR Hbody Hsel.
  pose proof (target_values_range _ _ _ HR) as Hvals.
  destruct (body_Continue_exact _ _ _ _ _ _ HR Hbody)
    as (k & fnc & fwc & Hk & Hsel0 & _ & _ & _ & Hlt & ->).
  rewrite Hsel0 in Hsel. injection Hsel as <- <-.
  destruct (selectInputs (amt + fnc) coins) as [[total' selected']|e] eqn:Hsel'.
  - destruct (selectInputs_exact _ _ _ _ Hvals Hsel')
      as (k' & Hk' & Hpre' & Htot' & _ & Hreach' & _).
    assert (k < k')%nat as Hgt.
    { destruct (decide (k < k')%nat) as [|Hle]; [assumption|].
      pose proof (sumValues_firstn_mono coins k' k (proj1 Hvals) ltac:(lia)).
      rewrite Htot', Hpre' in Hreach'. lia. }
    rewrite Hpre', !length_firstn.
    split; [lia|]. split.
    + rewrite firstn_firstn. f_equal. lia.
    + lia.
  - destruct (selectInputs_Err _ _ _ Hsel') as [-> _].
    rewrite <- prefixTotal_all, prefixTotal_exact, firstn_all by assumption.
    reflexivity.
Qed.

Lemma restart_selects_more_witness :
  match selectInputs 101181 Lnd.scenarioA with
  | OK (total', selected') =>
      (length (firstn 1 Lnd.scenarioA) < length selected')%nat /\
      firstn 1 Lnd.scenarioA =
        firstn (length (firstn 1 Lnd.scenarioA)) selected' /\
      100000 < total'
  | Err e => e = ErrInsufficientFunds 101181 (sumValues Lnd.scenarioA)
  end.
Proof.
  apply (restart_selects_more (env := Lnd.env) Lnd.rateA Lnd.amtRestart 500
           Lnd.scenarioA Lnd.amtRestart 101181 100000
           (firstn 1 Lnd.scenarioA)
           (inRange_targets _ _ _ _ restart_inRange)).
  - vm_compute. reflexivity.
  - vm_compute. reflexivity.
Defined.

(** * Properties of the tower candidate iterator *)

Import Wtclient.

Section IteratorFacts.

Context {towers : TowerEnv}.

Lemma Next_loop_spec cands before from :
  match Next_loop cands before from with
  | (inr tower, (before', from')) =>
      exists stale id,
        from = stale ++ id :: from' /\
        Forall (fun i => cands !! i = None) stale /\
        cands !! id = Some tower /\
        before' = before ++ [id]
  | (inl e, (before', from')) =>
      e = ErrTowerCandidatesExhausted /\
      Forall (fun i => cands !! i = None) from /\
      before' = before /\ from' = []
  end.
Proof.
  induction from as [|id from IH]; simpl.
  - repeat split. constructor.
  - destruct (cands !! id) as [tower|] eqn:Hid.
    + exists [], id. repeat split; [constructor|assumption].
    + destruct (Next_loop cands before from) as [[e|tower] [before' from']].
      * destruct IH as (-> & Hall & -> & ->). repeat split.
        constructor; assumption.
      * destruct IH as (stale & id' & -> & Hall & Hid' & ->).
        exists (id :: stale), id'. repeat split; try assumption.
        constructor; assumption.
Qed.

Lemma omap_stale (cands : gmap TowerID Tower) stale :
  Forall (fun i => cands !! i = None) stale ->
  omap (fun i => cands !! i) stale = [].
Proof.
  induction 1 as [|i stale Hi _ IH]; simpl; [reflexivity|].
  rewrite Hi. exact IH.
Qed.

Lemma stillCandidates_stale (cands : gmap TowerID Tower) stale :
  Forall (fun i => cands !! i = None) stale ->
  stillCandidates cands stale = [].
Proof.
  unfold stillCandidates.
  induction 1 as [|i stale Hi _ IH]; [reflexivity|].
  rewrite filter_cons_False; [exact IH|].
  rewrite Hi. intros [? ?]. discriminate.
Qed.

(** What a run of [Next] up to exhaustion returns and leaves. *)
Lemma drain_spec fuel :
  forall t,
    (length (queueFrom t) < fuel)%nat ->
    drain fuel t =
      (pending t,
       mkIterator (queueBefore t ++ stillCandidates (candidates t) (queueFrom t))
         [] (candidates t)).
Proof.
  induction fuel as [|fuel IH]; intros [before from cands] Hfuel;
    [simpl in Hfuel; lia|].
  simpl in *. unfold Next, pending. simpl.
  pose proof (Next_loop_spec cands before from) as Hspec.
  destruct (Next_loop cands before from) as [[e|tower] [before' from']].
  - destruct Hspec as (-> & Hall & -> & ->).
    rewrite (omap_stale cands from), (stillCandidates_stale cands from)
      by assumption.
    rewrite app_nil_r. reflexivity.
  - destruct Hspec as (stale & id & -> & Hall & Hid & ->).
    rewrite IH by (simpl; rewrite length_app in Hfuel; simpl in Hfuel; lia).
    unfold pending, stillCandidates. simpl.
    rewrite omap_app, filter_app. simpl. rewrite Hid.
    fold (stillCandidates cands stale).
    rewrite (omap_stale cands stale), (stillCandidates_stale cands stale)
      by assumption.
    simpl.
    rewrite filter_cons_True by (rewrite Hid; eauto).
    rewrite <- app_assoc. reflexivity.
Qed.

End IteratorFacts.

(** X10. [Next] returns the tower of the first identifier, from
    [nextCandidate] on, that is still a candidate, and moves behind it; the
    identifiers in front of it that are no longer candidates are removed
    from the list.  It returns [ErrTowerCandidatesExhausted], and no other
    error, exactly when no identifier from [nextCandidate] on is a candidate,
    and then removes them all.  It never changes the candidates. *)
Theorem Next_first_candidate {towers : TowerEnv} (t : towerListIterator) :
  candidates (snd (Next t)) = candidates t /\
  match fst (Next t) with
  | inr tower =>
      exists stale id,
        queueFrom t = stale ++ id :: queueFrom (snd (Next t)) /\
        Forall (fun i => IsActive i t = false) stale /\
        candidates t !! id = Some tower /\
        queueBefore (snd (Next t)) = queueBefore t ++ [id]
  | inl e =>
      e = ErrTowerCandidatesExhausted /\
      Forall (fun i => IsActive i t = false) (queueFrom t) /\
      queueBefore (snd (Next t)) = queueBefore t /\
      queueFrom (snd (Next t)) = []
  end.
Proof.
  assert (forall l, Forall (fun i => candidates t !! i = None) l ->
                    Forall (fun i => IsActive i t = false) l) as Hstale.
  { intros l Hl. eapply Forall_impl; [exact Hl|].
    intros i Hi. unfold IsActive. simpl in Hi. rewrite Hi. reflexivity. }
  unfold Next.
  pose proof (Next_loop_spec (candidates t) (queueBefore t) (queueFrom t))
    as Hspec.
  destruct (Next_loop _ _ _) as [[e|tower] [before' from']]; simpl.
  - destruct Hspec as (-> & Hall & -> & ->). auto 10.
  - destruct Hspec as (stale & id & Hcut & Hall & Hid & ->).
    split; [reflexivity|]. exists stale, id. auto.
Qed.

(** X11. Calling [Next] until the candidates are exhausted returns, in the
    order of the list, the towers of the identifiers from [nextCandidate] on
    that are candidates, each as often as its identifier occurs there; what
    is left in the list are the identifiers in front of [nextCandidate] and,
    of the others, those that are candidates. *)
Theorem drain_returns_pending {towers : TowerEnv} (t : towerListIterator) fuel :
  (length (queueFrom t) < fuel)%nat ->
  fst (drain fuel t) = pending t /\
  queue (snd (drain fuel t)) =
    queueBefore t ++ stillCandidates (candidates t) (queueFrom t) /\
  queueFrom (snd (drain fuel t)) = [] /\
  candidates (snd (drain fuel t)) = candidates t.
Proof.
  intros Hfuel. rewrite drain_spec by assumption. unfold queue. simpl.
  rewrite app_nil_r. auto.
Qed.

Lemma drain_returns_pending_witness :
  fst (drain 3 (newTowerListIterator (towers := plainTowers)
                  [towerA; towerB])) = [towerA; towerB].
Proof.
  apply (proj1 (drain_returns_pending (towers := plainTowers)
                  (newTowerListIterator [towerA; towerB]) 3
                  ltac:(simpl; lia))).
Defined.

Section IteratorConstruction.

Context {towers : TowerEnv}.

Lemma build_queue cs :
  forall acc,
    queueBefore (fold_left pushCandidate cs acc) = queueBefore acc ++ (ID <$> cs) /\
    queueFrom (fold_left pushCandidate cs acc) = queueFrom acc.
Proof.
  induction cs as [|c cs IH]; intros acc; simpl.
  - rewrite app_nil_r. auto.
  - destruct (IH (pushCandidate acc c)) as [-> ->]. simpl.
    rewrite <- app_assoc. auto.
Qed.

Lemma build_lookup_other cs :
  forall acc id,
    id ∉ ID <$> cs ->
    candidates (fold_left pushCandidate cs acc) !! id = candidates acc !! id.
Proof.
  induction cs as [|c cs IH]; intros acc id Hid; simpl; [reflexivity|].
  rewrite fmap_cons, not_elem_of_cons in Hid. destruct Hid as [Hne Hid].
  rewrite IH by assumption. simpl. apply lookup_insert_ne. congruence.
Qed.

Lemma build_lookup cs :
  forall acc c,
    NoDup (ID <$> cs) -> c ∈ cs ->
    candidates (fold_left pushCandidate cs acc) !! ID c = Some c.
Proof.
  induction cs as [|c0 cs IH]; intros acc c Hnd Hin; simpl.
  - inversion Hin.
  - rewrite fmap_cons in Hnd. apply NoDup_cons in Hnd as [Hfresh Hnd].
    apply elem_of_cons in Hin as [->|Hin].
    + rewrite build_lookup_other by assumption. simpl. apply lookup_insert_eq.
    + apply IH; assumption.
Qed.

Lemma build_active cs :
  forall acc id,
    is_Some (candidates (fold_left pushCandidate cs acc) !! id) ->
    id ∈ ID <$> cs \/ is_Some (candidates acc !! id).
Proof.
  induction cs as [|c cs IH]; intros acc id H; simpl in *; [auto|].
  destruct (IH _ _ H) as [Hin|Hacc].
  - left. apply elem_of_cons. auto.
  - simpl in Hacc. destruct (decide (ID c = id)) as [<-|Hne].
    + left. apply elem_of_cons. auto.
    + rewrite lookup_insert_ne in Hacc by assumption. auto.
Qed.

Lemma new_iterator_parts cs :
  queueBefore (newTowerListIterator cs) = [] /\
  queueFrom (newTowerListIterator cs) = ID <$> cs /\
  candidates (newTowerListIterator cs) =
    candidates (fold_left pushCandidate cs (mkIterator [] [] ∅)).
Proof.
  unfold newTowerListIterator, Reset. simpl.
  destruct (build_queue cs (mkIterator [] [] ∅)) as [-> ->]. simpl.
  rewrite app_nil_r. auto.
Qed.

Lemma new_iterator_pending cs :
  NoDup (ID <$> cs) -> pending (newTowerListIterator cs) = cs.
Proof.
  intros Hnd. unfold pending.
  destruct (new_iterator_parts cs) as (_ & -> & ->).
  assert (forall l, l ⊆ cs ->
            omap (fun i => candidates
                    (fold_left pushCandidate cs (mkIterator [] [] ∅)) !! i) (ID <$> l)
            = l) as Hall.
  { induction l as [|c l IH]; intros Hsub; [reflexivity|].
    rewrite fmap_cons. simpl.
    rewrite build_lookup by (try assumption; apply Hsub; left).
    f_equal. apply IH. intros x Hx. apply Hsub. right. assumption. }
  apply Hall. reflexivity.
Qed.

(** Every candidate has its identifier in the list. *)
Lemma reachable_active_in_queue t :
  reachable t ->
  forall id, is_Some (candidates t !! id) -> id ∈ queue t.
Proof.
  induction 1 as [cs|t _ IH|t _ IH|c t _ IH|id0 addr t _ IH]; intros id Hid.
  - unfold queue. destruct (new_iterator_parts cs) as (-> & -> & Hc).
    rewrite Hc in Hid. destruct (build_active _ _ _ Hid) as [Hin|Hempty].
    + exact Hin.
    + simpl in Hempty. rewrite lookup_empty in Hempty.
      destruct Hempty as [? ?]. discriminate.
  - unfold queue, Reset in *. simpl in *. apply IH, Hid.
  - unfold Next, queue in *.
    pose proof (Next_loop_spec (candidates t) (queueBefore t) (queueFrom t))
      as Hspec.
    destruct (Next_loop _ _ _) as [[e|tower] [before' from']]; simpl in *.
    + destruct Hspec as (_ & Hall & -> & ->).
      specialize (IH id Hid). rewrite elem_of_app in *.
      destruct IH as [Hin|Hin]; [auto|].
      rewrite Forall_forall in Hall. rewrite (Hall _ Hin) in Hid.
      destruct Hid as [? ?]. discriminate.
    + destruct Hspec as (stale & id' & Hcut & Hall & Hid' & ->).
      specialize (IH id Hid). rewrite Hcut in IH.
      rewrite !elem_of_app, elem_of_cons in IH.
      rewrite !elem_of_app, list_elem_of_singleton.
      destruct IH as [Hin|[Hin|[->|Hin]]]; auto.
      rewrite Forall_forall in Hall. rewrite (Hall _ Hin) in Hid.
      destruct Hid as [? ?]. discriminate.
  - unfold AddCandidate, queue in *.
    destruct (candidates t !! ID c) as [tower|] eqn:Hc; simpl in *.
    + apply IH. destruct (decide (ID c = id)) as [<-|Hne].
      * rewrite Hc. eauto.
      * rewrite lookup_insert_ne in Hid by assumption. exact Hid.
    + rewrite app_assoc, elem_of_app, list_elem_of_singleton.
      destruct (decide (ID c = id)) as [<-|Hne]; [auto|].
      rewrite lookup_insert_ne in Hid by assumption. left. apply IH, Hid.
  - unfold RemoveCandidate, queue in *.
    destruct (candidates t !! id0) as [tower|] eqn:Hc; [|apply IH, Hid].
    destruct addr as [a|].
    + assert (is_Some (candidates t !! id)) as Hid'.
      { destruct (length _ =? 0)%nat; simpl in Hid;
          (destruct (decide (id0 = id)) as [<-|Hne];
           [rewrite Hc; eauto
           |rewrite lookup_insert_ne in Hid by assumption; exact Hid]). }
      destruct (length _ =? 0)%nat; simpl; apply IH, Hid'.
    + simpl in *. apply IH.
      destruct (decide (id0 = id)) as [<-|Hne].
      * rewrite lookup_delete_eq in Hid. destruct Hid as [? ?]. discriminate.
      * rewrite lookup_delete_ne in Hid by assumption. exact Hid.
Qed.

End IteratorConstruction.

(** X12. An iterator made from candidates with distinct identifiers returns
    them in the order given, each once, and then reports the candidates
    exhausted. *)
Theorem new_iterator_order {towers : TowerEnv} (cs : list Tower) :
  NoDup (ID <$> cs) ->
  fst (drain (S (length cs)) (newTowerListIterator cs)) = cs /\
  fst (Next (snd (drain (S (length cs)) (newTowerListIterator cs)))) =
    inl ErrTowerCandidatesExhausted.
Proof.
  intros Hnd.
  assert (length (queueFrom (newTowerListIterator cs)) < S (length cs))%nat
    as Hfuel.
  { destruct (new_iterator_parts cs) as (_ & -> & _).
    rewrite length_fmap. lia. }
  rewrite drain_spec by assumption. simpl.
  split; [apply new_iterator_pending, Hnd|reflexivity].
Qed.

Lemma new_iterator_order_witness :
  fst (drain 3 (newTowerListIterator (towers := plainTowers)
                  [towerA; towerB])) = [towerA; towerB] /\
  fst (Next (snd (drain 3 (newTowerListIterator (towers := plainTowers)
                             [towerA; towerB])))) =
    inl ErrTowerCandidatesExhausted.
Proof.
  apply (new_iterator_order (towers := plainTowers) [towerA; towerB]).
  apply (bool_decide_unpack _). vm_compute. exact I.
Defined.

(** X13. In every iterator a client can arrive at, the identifier of every
    candidate is in the list, so that after [Reset] every candidate is
    returned by the calls of [Next] that follow, whatever was taken or
    removed before. *)
Theorem Reset_makes_candidates_available {towers : TowerEnv}
    (t : towerListIterator) id tower :
  reachable t ->
  candidates t !! id = Some tower ->
  id ∈ queue t /\
  tower ∈ fst (drain (S (length (queue t))) (Reset t)).
Proof.
  intros Hreach Hid.
  assert (id ∈ queue t) as Hin
    by (apply reachable_active_in_queue; [assumption|rewrite Hid; eauto]).
  split; [assumption|].
  rewrite drain_spec by (simpl; unfold queue; lia).
  simpl. unfold pending. simpl.
  apply list_elem_of_omap. exists id. split; assumption.
Qed.

Lemma Reset_makes_candidates_available_witness :
  1%N ∈ queue (snd (Next (newTowerListIterator (towers := plainTowers)
                            [towerA; towerB]))) /\
  towerA ∈
    fst (drain 3 (Reset (snd (Next (newTowerListIterator
                                      (towers := plainTowers)
                                      [towerA; towerB]))))).
Proof.
  apply (Reset_makes_candidates_available (towers := plainTowers)
           (snd (Next (newTowerListIterator [towerA; towerB]))) 1%N towerA).
  - apply reachable_Next, reachable_new.
  - reflexivity.
Defined.

(** X14. Once [Next] has reported the candidates exhausted it goes on doing
    so, leaving the iterator as it is; and a tower that is then added, and
    was not a candidate, is what the next call of [Next] returns. *)
Theorem exhausted_until_added {towers : TowerEnv} (t : towerListIterator) e :
  fst (Next t) = inl e ->
  Next (snd (Next t)) = (inl ErrTowerCandidatesExhausted, snd (Next t)) /\
  forall c,
    IsActive (ID c) t = false ->
    fst (Next (AddCandidate c (snd (Next t)))) = inr c.
Proof.
  intros Hex.
  assert (Next t = (inl ErrTowerCandidatesExhausted,
                    mkIterator (queueBefore t) [] (candidates t))) as HNext.
  { unfold Next in *.
    pose proof (Next_loop_spec (candidates t) (queueBefore t) (queueFrom t))
      as Hspec.
    destruct (Next_loop _ _ _) as [[e'|tower] [before' from']]; simpl in *;
      [|discriminate].
    destruct Hspec as (-> & _ & -> & ->). reflexivity. }
  rewrite HNext. simpl. split; [reflexivity|].
  intros c Hc. unfold IsActive in Hc. unfold AddCandidate, Next. simpl.
  destruct (candidates t !! ID c) eqn:Hid; [discriminate|]. simpl.
  rewrite lookup_insert_eq. reflexivity.
Qed.

Lemma exhausted_until_added_witness :
  fst (Next (AddCandidate towerB
               (snd (Next (newTowerListIterator (towers := plainTowers)
                             []))))) = inr towerB.
Proof.
  apply (proj2 (exhausted_until_added (towers := plainTowers)
                  (newTowerListIterator []) ErrTowerCandidatesExhausted
                  eq_refl)).
  reflexivity.
Defined.

(** X15. A tower that is added, was not a candidate and has no identifier
    left in the list behind [nextCandidate], is returned last: the calls of
    [Next] return what they would have returned without it, and then it. *)
Theorem added_candidate_is_last {towers : TowerEnv} (t : towerListIterator) c
    fuel :
  IsActive (ID c) t = false ->
  ID c ∉ queueFrom t ->
  (length (queueFrom t) < fuel)%nat ->
  fst (drain (S fuel) (AddCandidate c t)) = fst (drain fuel t) ++ [c].
Proof.
  intros Hnew Hfresh Hfuel. unfold IsActive in Hnew.
  unfold AddCandidate.
  destruct (candidates t !! ID c) eqn:Hid; [discriminate|].
  rewrite !drain_spec by (simpl; rewrite ?length_app; simpl; lia).
  simpl. unfold pending. simpl. rewrite omap_app. simpl.
  rewrite lookup_insert_eq. f_equal.
  apply list_omap_ext, Forall_Forall2_diag, Forall_forall.
  intros id Hin. apply lookup_insert_ne. intros <-. contradiction.
Qed.

Lemma added_candidate_is_last_witness :
  fst (drain 3 (AddCandidate towerB
                  (newTowerListIterator (towers := plainTowers) [towerA]))) =
  fst (drain 2 (newTowerListIterator (towers := plainTowers) [towerA])) ++
    [towerB].
Proof.
  apply (added_candidate_is_last (towers := plainTowers)
           (newTowerListIterator [towerA]) towerB 2).
  - reflexivity.
  - apply (bool_decide_unpack _). vm_compute. exact I.
  - simpl. lia.
Defined.

(** X16. Removing a tower leaves its identifier in the list until [Next]
    comes to it.  So when a tower whose identifier is behind
    [nextCandidate] is removed and added again before that, the list holds
    the identifier twice, and the calls of [Next] return the tower twice:
    once where it was and once at the back. *)
Theorem removed_and_added_again_twice {towers : TowerEnv}
    (t : towerListIterator) c fuel :
  ID c ∈ queueFrom t ->
  (S (length (queueFrom t)) < fuel)%nat ->
  let t' := AddCandidate c (snd (RemoveCandidate (ID c) None t)) in
  exists l1 l2, fst (drain fuel t') = l1 ++ c :: l2 ++ [c].
Proof.
  intros Hin Hfuel t'.
  assert (queueFrom t' = queueFrom t ++ [ID c] /\
          candidates t' !! ID c = Some c) as [Hfrom Hc].
  { subst t'. unfold RemoveCandidate, AddCandidate.
    destruct (candidates t !! ID c) as [old|] eqn:Hold; simpl.
    - rewrite lookup_delete_eq. simpl. rewrite lookup_insert_eq. auto.
    - rewrite Hold. simpl. rewrite lookup_insert_eq. auto. }
  rewrite drain_spec by (rewrite Hfrom, length_app; simpl; lia).
  simpl. unfold pending. rewrite Hfrom.
  apply list_elem_of_split in Hin as (l1 & l2 & Hcut). rewrite Hcut.
  rewrite <- app_assoc. simpl. rewrite omap_app. simpl. rewrite Hc.
  rewrite omap_app. simpl. rewrite Hc. eauto.
Qed.

Lemma removed_and_added_again_twice_witness :
  exists l1 l2,
    fst (drain 4
           (AddCandidate towerA
              (snd (RemoveCandidate 1%N None
                      (newTowerListIterator (towers := plainTowers)
                         [towerA; towerB]))))) =
    l1 ++ towerA :: l2 ++ [towerA].
Proof.
  apply (removed_and_added_again_twice (towers := plainTowers)
           (newTowerListIterator [towerA; towerB]) towerA 4).
  - apply (bool_decide_unpack _). vm_compute. exact I.
  - simpl. lia.
Defined.

(** X17. [IsActive] follows the candidates: a tower is active once added,
    and no longer after it is removed without an address; neither call
    changes whether another tower is active; and [Next], [Reset] and the
    removal of an address change it for no tower. *)
Theorem IsActive_follows_candidates {towers : TowerEnv}
    (t : towerListIterator) :
  (forall c, IsActive (ID c) (AddCandidate c t) = true) /\
  (forall c id, id <> ID c ->
     IsActive id (AddCandidate c t) = IsActive id t) /\
  (forall id, IsActive id (snd (RemoveCandidate id None t)) = false) /\
  (forall id id', id' <> id ->
     IsActive id' (snd (RemoveCandidate id None t)) = IsActive id' t) /\
  (forall id a id',
     IsActive id' (snd (RemoveCandidate id (Some a) t)) = IsActive id' t) /\
  (forall id, IsActive id (snd (Next t)) = IsActive id t) /\
  (forall id, IsActive id (Reset t) = IsActive id t).
Proof.
  unfold IsActive. repeat split.
  - intros c. unfold AddCandidate.
    destruct (candidates t !! ID c); simpl; rewrite lookup_insert_eq;
      reflexivity.
  - intros c id Hne. unfold AddCandidate.
    destruct (candidates t !! ID c); simpl;
      rewrite lookup_insert_ne by congruence; reflexivity.
  - intros id. unfold RemoveCandidate.
    destruct (candidates t !! id) eqn:Hid; simpl.
    + rewrite lookup_delete_eq. reflexivity.
    + rewrite Hid. reflexivity.
  - intros id id' Hne. unfold RemoveCandidate.
    destruct (candidates t !! id); simpl; [|reflexivity].
    rewrite lookup_delete_ne by congruence. reflexivity.
  - intros id a id'. unfold RemoveCandidate.
    destruct (candidates t !! id) eqn:Hid; simpl; [|reflexivity].
    destruct (length _ =? 0)%nat; simpl;
      (destruct (decide (id = id')) as [<-|Hne];
       [rewrite lookup_insert_eq, Hid; reflexivity
       |rewrite lookup_insert_ne by assumption; reflexivity]).
  - intros id. unfold Next.
    destruct (Next_loop _ _ _) as [r [before from]]. reflexivity.
Qed.

(** X18. [RemoveCandidate] fails in one case only: the tower is a candidate,
    an address is given, and the tower has no address left once that one is
    removed; the error is [ErrLastTowerAddr], and the tower stays a candidate
    with the address removed.  For a tower that is not a candidate it
    returns no error and leaves the iterator as it is, and it never touches
    the list or [nextCandidate]. *)
Theorem RemoveCandidate_errors {towers : TowerEnv} (t : towerListIterator)
    id addr :
  (forall e,
     fst (RemoveCandidate id addr t) = Some e <->
     e = ErrLastTowerAddr /\
     exists tower a,
       candidates t !! id = Some tower /\ addr = Some a /\
       Addresses (RemoveAddress tower a) = []) /\
  (forall tower a,
     candidates t !! id = Some tower -> addr = Some a ->
     candidates (snd (RemoveCandidate id addr t)) !! id =
       Some (RemoveAddress tower a)) /\
  (candidates t !! id = None -> RemoveCandidate id addr t = (None, t)) /\
  queueBefore (snd (RemoveCandidate id addr t)) = queueBefore t /\
  queueFrom (snd (RemoveCandidate id addr t)) = queueFrom t.
Proof.
  unfold RemoveCandidate.
  destruct (candidates t !! id) as [tower|] eqn:Hid;
    [destruct addr as [a|];
     [destruct (length (Addresses (RemoveAddress tower a)) =? 0)%nat eqn:Hlen;
      [apply Nat.eqb_eq, length_zero_iff_nil in Hlen
      |apply Nat.eqb_neq in Hlen]|]|];
    simpl; (split; [|split; [|split; [|split]]]);
    try reflexivity; try discriminate.
  - intros e. split.
    + intros [= <-]. split; [reflexivity|]. exists tower, a. auto.
    + intros [-> _]. reflexivity.
  - intros tower' a' [= <-] [= <-]. apply lookup_insert_eq.
  - intros e. split; [discriminate|].
    intros [_ (tower' & a' & [= <-] & [= <-] & Hnil)].
    rewrite Hnil in Hlen. contradiction.
  - intros tower' a' [= <-] [= <-]. apply lookup_insert_eq.
  - intros e. split; [discriminate|].
    intros [_ (tower' & a' & _ & Ha & _)]. discriminate.
  - intros e. split; [discriminate|].
    intros [_ (tower' & a' & Ht & _)]. discriminate.
Qed.

(** * The timestamp of a node announcement *)

(** X19. [NodeAnnSetTimestamp] makes the timestamp strictly larger, for a
    timestamp below the largest [uint32]: the new one is the current time
    in its low 32 bits when that is later, and the old one plus one
    otherwise.  At the largest [uint32] the increment wraps around to 0
    whatever the time. *)
Theorem NodeAnnSetTimestamp_increases now timestamp :
  (0 <= timestamp < 2 ^ 32 - 1 ->
   timestamp < Netann.NodeAnnSetTimestamp now timestamp < 2 ^ 32 /\
   Netann.NodeAnnSetTimestamp now timestamp =
     Z.max (Netann.uint32 now) (timestamp + 1)) /\
  Netann.NodeAnnSetTimestamp now (2 ^ 32 - 1) = 0.
Proof.
  unfold Netann.NodeAnnSetTimestamp, Netann.uint32.
  pose proof (Z.mod_pos_bound now (2 ^ 32) ltac:(lia)) as Hnow.
  split.
  - intros Hts. destruct (_ <=? timestamp) eqn:Hle.
    + rewrite Z.mod_small by lia. lia.
    + lia.
  - replace (2 ^ 32 - 1 + 1) with (2 ^ 32) by lia.
    rewrite Z.mod_same by lia.
    destruct (_ <=? _) eqn:Hle; [reflexivity|lia].
Qed.

Lemma NodeAnnSetTimestamp_increases_witness :
  1700000000 < Netann.NodeAnnSetTimestamp 1600000000 1700000000 < 2 ^ 32 /\
  Netann.NodeAnnSetTimestamp 1600000000 1700000000 =
    Z.max (Netann.uint32 1600000000) (1700000000 + 1).
Proof.
  apply (proj1 (NodeAnnSetTimestamp_increases 1600000000 1700000000)).
  lia.
Defined.

(** * Insufficient funds in CoinSelectSubtractFees *)

(** X20. With coin values within range, [CoinSelectSubtractFees] reports
    insufficient funds exactly when there is no candidate or the candidates
    total less than the requested amount, and then with that amount and that
    total: the fees never make it ask for more than the amount. *)
Theorem subtractFees_insufficient_iff {env : FeeEnv} feeRate amt dustLimit
    coins need have :
  valuesInRange coins ->
  (CoinSelectSubtractFees feeRate amt dustLimit coins =
     Err (ErrInsufficientFunds need have) <->
   need = amt /\ have = sumValues coins /\
   (coins = [] \/ sumValues coins < amt)).
Proof.
  intros Hvals. split.
  - unfold CoinSelectSubtractFees.
    destruct (selectInputs amt coins) as [[totalSat selected]|e] eqn:Hsel.
    + destruct (calculateFees selected feeRate) as [[fnc fwc]|e] eqn:Hfees.
      * destruct (_ <? dustLimit); [discriminate|].
        destruct (_ && _); unfold sanityCheckFee;
          destruct (_ >? _); discriminate.
      * destruct (calculateFees_Err_inv _ _ _ Hfees)
          as (? & ? & ? & _ & _ & _ & ->). discriminate.
    + destruct (selectInputs_Err _ _ _ Hsel) as [-> Hlt].
      intros [= <- <-].
      assert (accumulate coins 0 = sumValues coins) as Hacc.
      { rewrite <- prefixTotal_all, prefixTotal_exact, firstn_all
          by assumption.
        reflexivity. }
      repeat split; [assumption|].
      destruct coins as [|c coins]; [left; reflexivity|right].
      specialize (Hlt (length (c :: coins)) ltac:(simpl; lia)).
      rewrite prefixTotal_all, Hacc in Hlt. assumption.
  - intros (-> & -> & Hlow).
    destruct (exhausted_exact amt coins Hvals Hlow) as [Hacc Hlt].
    unfold CoinSelectSubtractFees.
    rewrite (selectInputs_exhausted _ _ Hlt), Hacc. reflexivity.
Qed.

Lemma subtractFees_insufficient_iff_witness :
  CoinSelectSubtractFees (env := Lnd.env) Lnd.rateA 200000 500 Lnd.scenarioA =
    Err (ErrInsufficientFunds 200000 150000).
Proof.
  apply (proj2 (subtractFees_insufficient_iff (env := Lnd.env) Lnd.rateA
                  200000 500 Lnd.scenarioA 200000 150000
                  (values_range _ _ _ _ scenarioA_inRange))).
  vm_compute. repeat split. right. reflexivity.
Defined.
